(** * IdP claim capture and projection workflows

    A shallow embedding of the two Kinde workflows of this repository:

    - [captureIdpClaimsWorkflow] (trigger [user:post_authentication]), which
      filters the identity-token claims of a social login and stores them, as
      JSON, in the user property [idp_claims];
    - [handleTokensGeneration] (trigger [user:tokens_generation]), which reads
      that property back and copies its entries into the access-token and
      ID-token custom claims under the prefix [idp_].

    The JavaScript the handlers rely on is modelled as far as they use it:
    strings as sequences of UTF-16 code units, objects as ordered lists of
    own properties, [JSON.parse] and [JSON.stringify], completions (normal,
    [return], [throw]) and [try]/[catch].  The Management API client is an
    environment that settles every request; the requests a handler makes are
    recorded in order.  Console output is diagnostic and is no part of the
    state; the closing log of the projection, whose message can fail to be
    computed, is modelled by that failure. *)

From Stdlib Require Import NArith ZArith List Ascii String Lia.
From Stdlib Require Import Decimal DecimalFacts DecimalPos DecimalN DecimalZ.
From stdpp Require Import base option list gmap.

Set Default Proof Using "Type".
#[local] Set Warnings "-register-all".

Local Open Scope N_scope.

(** ** Strings *)

(** A JavaScript string is a sequence of 16-bit code units. *)
Abbreviation code_unit := N (only parsing).
Abbreviation jsstring := (list N) (only parsing).

(** [js s] is the string literal [s] (ASCII text). *)
Definition js (s : string) : jsstring :=
  List.map N_of_ascii (list_ascii_of_string s).

Definition QUOTE : code_unit := 34.      (* the double quote *)
Definition BACKSLASH : code_unit := 92.
Definition SLASH : code_unit := 47.
Definition UNDERSCORE : code_unit := 95.
Definition COMMA : code_unit := 44.
Definition COLON : code_unit := 58.
Definition LBRACE : code_unit := 123.
Definition RBRACE : code_unit := 125.
Definition LBRACKET : code_unit := 91.
Definition RBRACKET : code_unit := 93.
Definition MINUS : code_unit := 45.
Definition PLUS : code_unit := 43.
Definition DOT : code_unit := 46.
Definition SPACE : code_unit := 32.
Definition LF : code_unit := 10.

(** [String.prototype.startsWith]: [s.startsWith(p)]. *)
Fixpoint startsWith (s p : jsstring) : bool :=
  match p, s with
  | [], _ => true
  | _ :: _, [] => false
  | a :: p', b :: s' => (a =? b) && startsWith s' p'
  end.

(** [strip_prefix p s] is [Some r] when [s = p ++ r]. *)
Fixpoint strip_prefix (p s : jsstring) : option jsstring :=
  match p, s with
  | [], _ => Some s
  | _ :: _, [] => None
  | a :: p', b :: s' => if a =? b then strip_prefix p' s' else None
  end.

(** Decimal digits, for array indices and for the integer numbers below. *)
Fixpoint string_of_uint (d : uint) : jsstring :=
  match d with
  | Nil => []
  | D0 d => 48 :: string_of_uint d
  | D1 d => 49 :: string_of_uint d
  | D2 d => 50 :: string_of_uint d
  | D3 d => 51 :: string_of_uint d
  | D4 d => 52 :: string_of_uint d
  | D5 d => 53 :: string_of_uint d
  | D6 d => 54 :: string_of_uint d
  | D7 d => 55 :: string_of_uint d
  | D8 d => 56 :: string_of_uint d
  | D9 d => 57 :: string_of_uint d
  end.

(** [ToString] of an array index. *)
Definition index_key (i : N) : jsstring := string_of_uint (N.to_uint i).

(** ** The grammar of JSON numbers

    An optional minus sign; an integer part that is 0 or a non-zero digit
    followed by digits; an optional fraction, a dot and one or more digits;
    an optional exponent, e or E, an optional sign and one or more digits. *)

Definition is_digit (c : code_unit) : bool := (48 <=? c) && (c <=? 57).

(** The code units a number literal is made of. *)
Definition is_number_unit (c : code_unit) : bool :=
  is_digit c || (c =? MINUS) || (c =? PLUS) || (c =? DOT)
  || (c =? 101) || (c =? 69).

Fixpoint all_digits (s : jsstring) : bool :=
  match s with
  | [] => true
  | c :: s' => is_digit c && all_digits s'
  end.

(** One or more digits, then the end of the literal. *)
Definition digits1 (s : jsstring) : bool :=
  match s with
  | [] => false
  | _ :: _ => all_digits s
  end.

(** The exponent part after [e] or [E]. *)
Definition exponent_part (s : jsstring) : bool :=
  match s with
  | c :: s' => if (c =? PLUS) || (c =? MINUS) then digits1 s' else digits1 s
  | [] => false
  end.

(** Digits of a fraction (at least one when [seen]), then an optional
    exponent. *)
Fixpoint fraction_part (seen : bool) (s : jsstring) : bool :=
  match s with
  | [] => seen
  | c :: s' =>
      if is_digit c then fraction_part true s'
      else if (c =? 101) || (c =? 69) then seen && exponent_part s'
      else false
  end.

(** What may follow the integer part. *)
Definition after_int (s : jsstring) : bool :=
  match s with
  | [] => true
  | c :: s' =>
      if c =? DOT then fraction_part false s'
      else if (c =? 101) || (c =? 69) then exponent_part s'
      else false
  end.

(** Further digits of an integer part that does not start with [0]. *)
Fixpoint int_digits (s : jsstring) : bool :=
  match s with
  | [] => true
  | c :: s' => if is_digit c then int_digits s' else after_int s
  end.

Definition unsigned_number (s : jsstring) : bool :=
  match s with
  | [] => false
  | c :: s' =>
      if c =? 48 then after_int s'
      else if is_digit c then int_digits s'
      else false
  end.

(** [JSONNumber s]: [s] is a number literal of the JSON grammar. *)
Definition JSONNumber (s : jsstring) : bool :=
  match s with
  | c :: s' => if c =? MINUS then unsigned_number s' else unsigned_number s
  | [] => false
  end.

(** ** Numbers

    The handlers never compute with a claim value: a number is read from
    JSON text, printed back and tested for truth.  The model is therefore
    parametric in the Number values, the two zeros identified.  A number
    can be [NaN] or an infinity: [JSON.parse] returns an infinity for a
    literal that is too large, and [JSON.stringify] writes [null] for a
    number that is not finite. *)
Class Number := {
  number : Type;
  (** [Number::toString(x, 10)] *)
  NumberToString : number → jsstring;
  (** the value of a JSON number literal, rounded *)
  StringToNumber : jsstring → number;
  (** [Number.isFinite(x)] *)
  isFinite : number → bool;
  (** [ToBoolean(x)]: false for zero and for [NaN] *)
  NumberToBoolean : number → bool;
}.

(** ECMAScript prints a finite number as a literal that reads back as the
    same number. *)
Class NumberLaws `{Number} : Prop := {
  NumberToString_literal n :
    isFinite n = true → JSONNumber (NumberToString n) = true;
  StringToNumber_NumberToString n :
    isFinite n = true → StringToNumber (NumberToString n) = n;
}.

(** ** Completions and the Management API *)

(** Why the Management API refuses a request. *)
Inductive api_failure :=
| PropertyAlreadyExists
| OtherFailure (message : jsstring).

(** What can be thrown: [new Error(message)], the errors of the language,
    and the rejection of a request. *)
Inductive exn :=
| Error (message : jsstring)
| TypeError
| SyntaxError
| ApiRejection (f : api_failure).

(** How an awaited call settles. *)
Inductive settled (A : Type) :=
| Resolved (a : A)
| Rejected (e : exn).
Arguments Resolved {A} a.
Arguments Rejected {A} e.

Inductive method := GET | POST | PATCH.

Record request := {
  req_method : method;
  endpoint : jsstring;
  params : list (jsstring * jsstring);
}.

(** The value of a property as the API lists it: a string, [null], or
    nothing at all (reading it gives [undefined]). *)
Inductive property_value :=
| PropString (s : jsstring)
| PropNull
| PropMissing.

(** A property as the API lists it. *)
Record property := {
  prop_key : jsstring;
  prop_value : property_value;
}.

Record response_data := { data_properties : option (list property) }.

(** The response of a request: [{ data: { properties: [...] } }], where
    [data], [data.properties] and a top-level [properties] may each be
    missing. *)
Record response := {
  data : option response_data;
  properties : option (list property);
}.

(** The environment of one invocation: how [createKindeAPI] and each
    request settle, and the time. *)
Record environment := {
  createKindeAPI : settled unit;
  respond : request → settled response;
  now : jsstring;                       (* new Date().toISOString() *)
}.

(** How a piece of a function body completes. *)
Inductive completion (A : Type) :=
| Normal (a : A)
| Return
| Throw (e : exn).
Arguments Normal {A} a.
Arguments Return {A}.
Arguments Throw {A} e.

(** [Object.keys(o)], for an object given by its properties. *)
Abbreviation keys o := (o.*1) (only parsing).

Section Workflows.
Context {Num : Number}.

(** ** Values and objects *)

(** The values a claim can carry.  An object is the list of its own
    enumerable string-keyed properties in property order (the special place
    of integer-like keys in that order is not modelled; nothing below
    depends on the order). *)
Inductive value :=
| VUndefined
| VNull
| VBool (b : bool)
| VNum (n : number)
| VStr (s : jsstring)
| VArr (elements : list value)
| VObj (properties : list (jsstring * value)).

Abbreviation object := (list (jsstring * value)) (only parsing).

(** [o[k]] for an own property. *)
Fixpoint obj_get (o : object) (k : jsstring) : option value :=
  match o with
  | [] => None
  | (k', v) :: o' => if bool_decide (k' = k) then Some v else obj_get o' k
  end.

(** [CreateDataProperty]: an existing property keeps its place and takes the
    new value, a new one is added last. *)
Fixpoint obj_define (o : object) (k : jsstring) (v : value) : object :=
  match o with
  | [] => [(k, v)]
  | (k', v') :: o' =>
      if bool_decide (k' = k) then (k, v) :: o' else (k', v') :: obj_define o' k v
  end.

Definition PROTO : jsstring := js "__proto__".

(** The assignment [o[k] = v] on an ordinary object whose prototype is
    [Object.prototype].  The name [__proto__] reaches the inherited setter:
    it replaces the prototype when [v] is an object or [null] and does
    nothing otherwise; in both cases no own property is created. *)
Definition obj_assign (o : object) (k : jsstring) (v : value) : object :=
  if bool_decide (k = PROTO) then o else obj_define o k v.

(** [Object.entries(v)]; [None] is the TypeError raised for [null] and
    [undefined].  An array lists its elements under their indices, a string
    its code units, a number or a boolean nothing. *)
Definition Object_entries (v : value) : option object :=
  match v with
  | VUndefined | VNull => None
  | VBool _ | VNum _ => Some []
  | VStr s => Some (imap (λ i c, (index_key (N.of_nat i), VStr [c])) s)
  | VArr l => Some (imap (λ i x, (index_key (N.of_nat i), x)) l)
  | VObj o => Some o
  end.

(** ** [JSON.parse] *)

Definition is_ws (c : code_unit) : bool :=
  (c =? SPACE) || (c =? 9) || (c =? LF) || (c =? 13).

Fixpoint skip_ws (cs : jsstring) : jsstring :=
  match cs with
  | c :: cs' => if is_ws c then skip_ws cs' else cs
  | [] => []
  end.

Definition hex_value (c : code_unit) : option N :=
  if is_digit c then Some (c - 48)
  else if (97 <=? c) && (c <=? 102) then Some (c - 87)
  else if (65 <=? c) && (c <=? 70) then Some (c - 55)
  else None.

Definition hex4 (a b c d : code_unit) : option code_unit :=
  x3 ← hex_value a; x2 ← hex_value b; x1 ← hex_value c; x0 ← hex_value d;
  Some (4096 * x3 + 256 * x2 + 16 * x1 + x0).

(** The code unit a single-character escape stands for. *)
Definition escape_unit (e : code_unit) : option code_unit :=
  if e =? QUOTE then Some QUOTE
  else if e =? BACKSLASH then Some BACKSLASH
  else if e =? SLASH then Some SLASH
  else if e =? 98 then Some 8          (* b *)
  else if e =? 102 then Some 12        (* f *)
  else if e =? 110 then Some 10        (* n *)
  else if e =? 114 then Some 13        (* r *)
  else if e =? 116 then Some 9         (* t *)
  else None.

(** The characters of a string literal after its opening quote, up to and
    including the closing quote. *)
Fixpoint parse_chars (cs : jsstring) : option (jsstring * jsstring) :=
  match cs with
  | [] => None
  | c :: cs' =>
      if c =? QUOTE then Some ([], cs')
      else if c =? BACKSLASH then
        match cs' with
        | e :: cs'' =>
            if e =? 117 then           (* u and four hex digits *)
              match cs'' with
              | h1 :: h2 :: h3 :: h4 :: cs3 =>
                  u ← hex4 h1 h2 h3 h4;
                  '(s, r) ← parse_chars cs3;
                  Some (u :: s, r)
              | _ => None
              end
            else
              u ← escape_unit e;
              '(s, r) ← parse_chars cs'';
              Some (u :: s, r)
        | [] => None
        end
      else if c <? 32 then None
      else '(s, r) ← parse_chars cs'; Some (c :: s, r)
  end.

(** The longest run of code units that can belong to a number literal. *)
Fixpoint span_number (cs : jsstring) : jsstring * jsstring :=
  match cs with
  | c :: cs' =>
      if is_number_unit c
      then let '(l, r) := span_number cs' in (c :: l, r)
      else ([], cs)
  | [] => ([], [])
  end.

Definition parse_number (cs : jsstring) : option (value * jsstring) :=
  let '(l, r) := span_number cs in
  if JSONNumber l then Some (VNum (StringToNumber l), r) else None.

(** A value at the head of [cs] (white space already skipped), the elements
    of an array after its bracket, and the members of an object after its
    brace.  [fuel] bounds the number of nested calls.  A member whose name is
    already present replaces that property's value ([CreateDataProperty]). *)
Fixpoint parse_value (fuel : nat) (cs : jsstring) : option (value * jsstring) :=
  match fuel with
  | O => None
  | S fuel =>
      match cs with
      | [] => None
      | c :: cs' =>
          if c =? LBRACE then
            match skip_ws cs' with
            | d :: r =>
                if d =? RBRACE then Some (VObj [], r)
                else '(o, r') ← parse_members fuel [] (d :: r); Some (VObj o, r')
            | [] => None
            end
          else if c =? LBRACKET then
            match skip_ws cs' with
            | d :: r =>
                if d =? RBRACKET then Some (VArr [], r)
                else '(l, r') ← parse_elements fuel (d :: r); Some (VArr l, r')
            | [] => None
            end
          else if c =? QUOTE then
            '(s, r) ← parse_chars cs'; Some (VStr s, r)
          else if c =? 116 then
            r ← strip_prefix (js "true") cs; Some (VBool true, r)
          else if c =? 102 then
            r ← strip_prefix (js "false") cs; Some (VBool false, r)
          else if c =? 110 then
            r ← strip_prefix (js "null") cs; Some (VNull, r)
          else parse_number cs
      end
  end
with parse_elements (fuel : nat) (cs : jsstring) : option (list value * jsstring) :=
  match fuel with
  | O => None
  | S fuel =>
      '(v, r) ← parse_value fuel cs;
      match skip_ws r with
      | d :: r' =>
          if d =? COMMA then
            '(l, r'') ← parse_elements fuel (skip_ws r'); Some (v :: l, r'')
          else if d =? RBRACKET then Some ([v], r')
          else None
      | [] => None
      end
  end
with parse_members (fuel : nat) (o : object) (cs : jsstring)
    : option (object * jsstring) :=
  match fuel with
  | O => None
  | S fuel =>
      match cs with
      | q :: cs' =>
          if q =? QUOTE then
            '(k, r) ← parse_chars cs';
            match skip_ws r with
            | d :: r1 =>
                if d =? COLON then
                  '(v, r2) ← parse_value fuel (skip_ws r1);
                  match skip_ws r2 with
                  | e :: r3 =>
                      if e =? COMMA
                      then parse_members fuel (obj_define o k v) (skip_ws r3)
                      else if e =? RBRACE then Some (obj_define o k v, r3)
                      else None
                  | [] => None
                  end
                else None
            | [] => None
            end
          else None
      | [] => None
      end
  end.

(** [JSON.parse(text)]; [None] is the SyntaxError it throws.  Every nested
    call consumes a code unit within two steps, so the fuel is never the
    reason for a failure ([JSON_parse_fuel] below). *)
Definition JSON_parse (text : jsstring) : option value :=
  match parse_value (S (2 * length text)) (skip_ws text) with
  | Some (v, r) => match skip_ws r with [] => Some v | _ :: _ => None end
  | None => None
  end.

(** ** [JSON.stringify] *)

Definition hex_digit (d : N) : code_unit := if d <? 10 then 48 + d else 87 + d.

(** [UnicodeEscape]: backslash, u and four lowercase hex digits. *)
Definition unicode_escape (c : code_unit) : jsstring :=
  [BACKSLASH; 117; hex_digit (c / 4096 mod 16); hex_digit (c / 256 mod 16);
   hex_digit (c / 16 mod 16); hex_digit (c mod 16)].

Definition is_leading_surrogate (c : code_unit) : bool :=
  (55296 <=? c) && (c <=? 56319).
Definition is_trailing_surrogate (c : code_unit) : bool :=
  (56320 <=? c) && (c <=? 57343).

Definition quote_unit (c : code_unit) : jsstring :=
  if c =? 8 then [BACKSLASH; 98]
  else if c =? 9 then [BACKSLASH; 116]
  else if c =? 10 then [BACKSLASH; 110]
  else if c =? 12 then [BACKSLASH; 102]
  else if c =? 13 then [BACKSLASH; 114]
  else if c =? QUOTE then [BACKSLASH; QUOTE]
  else if c =? BACKSLASH then [BACKSLASH; BACKSLASH]
  else if c <? 32 then unicode_escape c
  else [c].

(** The body of [QuoteJSONString]: a surrogate pair is kept, a lone
    surrogate is escaped. *)
Fixpoint quote_units (s : jsstring) : jsstring :=
  match s with
  | [] => []
  | c :: s' =>
      if is_leading_surrogate c then
        match s' with
        | d :: s'' =>
            if is_trailing_surrogate d then c :: d :: quote_units s''
            else unicode_escape c ++ quote_units s'
        | [] => unicode_escape c
        end
      else if is_trailing_surrogate c then unicode_escape c ++ quote_units s'
      else quote_unit c ++ quote_units s'
  end.

Definition QuoteJSONString (s : jsstring) : jsstring :=
  QUOTE :: quote_units s ++ [QUOTE].

Fixpoint join (sep : jsstring) (parts : list jsstring) : jsstring :=
  match parts with
  | [] => []
  | [p] => p
  | p :: ps => p ++ sep ++ join sep ps
  end.

Section Serialize.
Variable gap : jsstring.

Definition member_colon : jsstring :=
  match gap with [] => [COLON] | _ :: _ => [COLON; SPACE] end.

(** The text of an object or array with the given parts; [stepback] is the
    indentation outside, [indent] the one inside. *)
Definition wrap (opening closing : code_unit) (stepback indent : jsstring)
    (parts : list jsstring) : jsstring :=
  match parts with
  | [] => [opening; closing]
  | _ :: _ =>
      match gap with
      | [] => opening :: join [COMMA] parts ++ [closing]
      | _ :: _ =>
          opening :: LF :: indent ++ join (COMMA :: LF :: indent) parts
            ++ LF :: stepback ++ [closing]
      end
  end.

(** The parts of an array and of an object, given the serialization [ser]
    of a value: an array writes [null] for a value that has none, an object
    leaves the member out. *)
Definition serialize_elements (ser : value → option jsstring)
    (l : list value) : list jsstring :=
  (λ x, default (js "null") (ser x)) <$> l.

Definition serialize_members (ser : value → option jsstring)
    (o : object) : list jsstring :=
  omap (λ '(k, x), t ← ser x; Some (QuoteJSONString k ++ member_colon ++ t)) o.

(** [SerializeJSONProperty]; [None] is [undefined]. *)
Fixpoint SerializeJSONProperty (indent : jsstring) (v : value) : option jsstring :=
  match v with
  | VUndefined => None
  | VNull => Some (js "null")
  | VBool true => Some (js "true")
  | VBool false => Some (js "false")
  | VNum n => Some (if isFinite n then NumberToString n else js "null")
  | VStr s => Some (QuoteJSONString s)
  | VArr l =>
      Some (wrap LBRACKET RBRACKET indent (indent ++ gap)
        (serialize_elements (SerializeJSONProperty (indent ++ gap)) l))
  | VObj o =>
      Some (wrap LBRACE RBRACE indent (indent ++ gap)
        (serialize_members (SerializeJSONProperty (indent ++ gap)) o))
  end.

End Serialize.

(** [JSON.stringify(v, null, space)] for a number [space]; without the
    third argument [space] is 0.  [None] is [undefined]. *)
Definition JSON_stringify (v : value) (space : nat) : option jsstring :=
  SerializeJSONProperty (replicate (space `min` 10) SPACE) [] v.

(** Strings, numbers, booleans and [null]. *)
Definition primitive (v : value) : bool :=
  match v with
  | VNull | VBool _ | VNum _ | VStr _ => true
  | VUndefined | VArr _ | VObj _ => false
  end.

(** The values JSON can write and read back: no [undefined] and no number
    that is not finite at any depth, and distinct names in every object. *)
Fixpoint is_json (v : value) : bool :=
  match v with
  | VUndefined => false
  | VNum n => isFinite n
  | VNull | VBool _ | VStr _ => true
  | VArr l => forallb is_json l
  | VObj o =>
      bool_decide (NoDup (keys o)) && forallb (λ '(_, x), is_json x) o
  end.

(** The same without the condition on numbers: the values [JSON.parse] can
    return. *)
Fixpoint is_data (v : value) : bool :=
  match v with
  | VUndefined => false
  | VNull | VBool _ | VNum _ | VStr _ => true
  | VArr l => forallb is_data l
  | VObj o =>
      bool_decide (NoDup (keys o)) && forallb (λ '(_, x), is_data x) o
  end.

(** [as_written v] is [v] with [null] in place of every number that is not
    finite, as [JSON.stringify] writes it. *)
Fixpoint as_written (v : value) : value :=
  match v with
  | VNum n => if isFinite n then VNum n else VNull
  | VArr l => VArr (as_written <$> l)
  | VObj o => VObj ((λ '(k, x), (k, as_written x)) <$> o)
  | _ => v
  end.

(** ** Conversions

    [ToBoolean] and [ToString] of a value that holds data.  An object is a
    plain one: [Object.prototype.toString] gives its text unless the object
    has an own property [toString], which, being data, cannot be called, and
    then neither can the inherited [valueOf] help: a TypeError ([None]).  An
    array joins the texts of its elements. *)
Definition ToBoolean (v : value) : bool :=
  match v with
  | VUndefined | VNull => false
  | VBool b => b
  | VNum n => NumberToBoolean n
  | VStr [] => false
  | VStr (_ :: _) | VArr _ | VObj _ => true
  end.

Fixpoint ToString (v : value) : option jsstring :=
  match v with
  | VUndefined => Some (js "undefined")
  | VNull => Some (js "null")
  | VBool true => Some (js "true")
  | VBool false => Some (js "false")
  | VNum n => Some (NumberToString n)
  | VStr s => Some s
  | VArr l =>
      join [COMMA] <$>
        (fix elements (l : list value) : option (list jsstring) :=
           match l with
           | [] => Some []
           | x :: l' =>
               s ← match x with
                   | VUndefined | VNull => Some []
                   | _ => ToString x
                   end;
               ss ← elements l';
               Some (s :: ss)
           end) l
  | VObj o =>
      if bool_decide (js "toString" ∈ keys o) then None
      else Some (js "[object Object]")
  end.

(** The text of a member, for a value that has a serialization. *)
Definition member_text (gap indent : jsstring) (e : jsstring * value) : jsstring :=
  QuoteJSONString e.1 ++ member_colon gap
    ++ default [] (SerializeJSONProperty gap indent e.2).

(** [JSON.stringify] of an object is always a string. *)
Definition stringify_object (o : object) (space : nat) : jsstring :=
  default [] (JSON_stringify (VObj o) space).

(** ** The host *)

(** The state an invocation can change: the requests sent to the Management
    API, in order, and the custom claims of the two tokens, which the host
    hands out through [accessTokenCustomClaims] and [idTokenCustomClaims]. *)
Record host := {
  requests : list request;
  accessToken : gmap jsstring value;
  idToken : gmap jsstring value;
}.

Definition M (A : Type) : Type := host → completion A * host.

#[local] Instance M_ret : MRet M := λ A a h, (Normal a, h).
#[local] Instance M_bind : MBind M := λ A B f m h,
  match m h with
  | (Normal a, h') => f a h'
  | (Return, h') => (Return, h')
  | (Throw e, h') => (Throw e, h')
  end.

Definition return_ {A} : M A := λ h, (Return, h).
Definition throw {A} (e : exn) : M A := λ h, (Throw e, h).

(** [try { body } catch (error) { handler error }] *)
Definition try_catch {A} (body : M A) (handler : exn → M A) : M A := λ h,
  match body h with
  | (Throw e, h') => handler e h'
  | r => r
  end.

Definition await {A} (s : settled A) : M A :=
  match s with
  | Resolved a => mret a
  | Rejected e => throw e
  end.

(** [await kindeAPI.get/post/patch({ endpoint, params })]: the request is
    sent, then the call settles. *)
Definition kindeAPI (env : environment) (m : method) (ep : jsstring)
    (ps : list (jsstring * jsstring)) : M response := λ h,
  let req := {| req_method := m; endpoint := ep; params := ps |} in
  await (respond env req)
    {| requests := requests h ++ [req];
       accessToken := accessToken h; idToken := idToken h |}.

(** A string is truthy when it is not empty; a missing one is not. *)
Definition truthy (s : option jsstring) : option jsstring :=
  match s with
  | Some (c :: s') => Some (c :: s')
  | _ => None
  end.

(** ** The capture workflow *)

(** The provider of the event; its name is a string. *)
Record provider := {
  protocol : option jsstring;           (* provider.protocol *)
  provider_name : jsstring;             (* provider.provider *)
  claims : option object;               (* provider.data?.idToken?.claims *)
}.

Record auth_event := {
  auth_provider : option provider;      (* event.context?.auth?.provider *)
  auth_user_id : option jsstring;       (* event.context?.user?.id *)
}.

Definition PROPERTY_CATEGORY_ID : jsstring :=
  js "cat_019a726f9081c669edb803d1970ea19b".
Definition IDP_CLAIMS_PROPERTY_KEY : jsstring := js "idp_claims".

(** [listed l]: the listing [l] has a property with the key [idp_claims]. *)
Definition listed (l : option (list property)) : bool :=
  existsb (λ prop, bool_decide (prop_key prop = IDP_CLAIMS_PROPERTY_KEY))
    (default [] l).

Definition ignoreClaims : list jsstring :=
  [ js "iss"; js "aud"; js "exp"; js "iat"; js "nbf"; js "jti"; js "azp";
    js "nonce"; js "auth_time"; js "at_hash"; js "c_hash";
    js "aio"; js "ver"; js "rh"; js "uti"; js "ipaddr";
    js "nonce";
    js "sid"; js "s_hash" ].

(** [ignoreClaims.has(claimName)] *)
Definition ignored (claimName : jsstring) : bool :=
  bool_decide (claimName ∈ ignoreClaims).

Definition is_nullish (v : value) : bool :=
  match v with
  | VNull | VUndefined => true
  | _ => false
  end.

(** The loop over [Object.entries(idTokenClaims)]: it reads the entries and
    assigns to [claimsToStore]. *)
Fixpoint filter_loop (entries : object) (claimsToStore : object) : object :=
  match entries with
  | [] => claimsToStore
  | (claimName, claimValue) :: entries' =>
      filter_loop entries'
        (if negb (ignored claimName) && negb (is_nullish claimValue)
         then obj_assign claimsToStore claimName claimValue
         else claimsToStore)
  end.

(** Whether the loop stores the entry: the name is not ignored, the value is
    neither [null] nor [undefined], and the assignment creates a property. *)
Definition kept (claimName : jsstring) (claimValue : value) : bool :=
  negb (ignored claimName) && negb (is_nullish claimValue)
  && negb (bool_decide (claimName = PROTO)).

(** The claim filter: the loop run on a fresh [claimsToStore]. *)
Definition filter_claims (idTokenClaims : object) : object :=
  filter_loop idTokenClaims [].

(** [claimsToStore] when it is serialized: the filtered claims and the two
    metadata fields. *)
Definition snapshot (p : provider) (idTokenClaims : object) (time : jsstring)
    : object :=
  obj_assign
    (obj_assign (filter_claims idTokenClaims) (js "_provider")
       (VStr (provider_name p)))
    (js "_last_updated") (VStr time).

Definition list_properties_request : request :=
  {| req_method := GET; endpoint := js "properties";
     params := [(js "context", js "usr")] |}.

Definition create_property_request : request :=
  {| req_method := POST; endpoint := js "properties";
     params :=
       [ (js "key", IDP_CLAIMS_PROPERTY_KEY);
         (js "name", js "IdP Claims");
         (js "description",
           js "All claims from the identity provider stored as JSON");
         (js "type", js "multi_line_text");
         (js "context", js "usr");
         (js "is_private", js "false");
         (js "category_id", PROPERTY_CATEGORY_ID) ] |}.

Definition patch_request (userId claimsJson : jsstring) : request :=
  {| req_method := PATCH;
     endpoint := js "users/" ++ userId ++ js "/properties";
     params :=
       [ (js "properties",
           stringify_object [(IDP_CLAIMS_PROPERTY_KEY, VStr claimsJson)] 0) ] |}.

Definition send (env : environment) (r : request) : M response :=
  kindeAPI env (req_method r) (endpoint r) (params r).

Definition captureIdpClaimsWorkflow (env : environment) (event : auth_event)
    : M unit :=
  match auth_provider event with
  | None => return_
  | Some provider =>
      if negb (bool_decide (protocol provider = Some (js "oauth2")))
      then return_
      else
        match claims provider with
        | None => return_
        | Some idTokenClaims =>
            match truthy (auth_user_id event) with
            | None => throw (Error (js "User ID is required"))
            | Some userId =>
                await (createKindeAPI env);;
                propertyExists ←
                  try_catch
                    (propertiesResponse ← send env list_properties_request;
                     match data propertiesResponse with
                     | None => throw TypeError
                     | Some d =>
                         mret (listed (data_properties d))
                     end)
                    (λ error, throw error);
                (if negb propertyExists
                 then try_catch
                        (send env create_property_request;; mret ())
                        (λ error, throw error)
                 else mret ());;
                let claimsToStore := snapshot provider idTokenClaims (now env) in
                let claimsJson := stringify_object claimsToStore 2 in
                try_catch
                  (send env (patch_request userId claimsJson);; mret ())
                  (λ error, throw error)
            end
        end
  end.

(** ** The projection workflow *)

Record tokens_event := {
  event_user_id : option jsstring;      (* event.user?.id *)
  context_user_id : option jsstring;    (* event.context?.user?.id *)
}.

Definition user_properties_request (userId : jsstring) : request :=
  {| req_method := GET;
     endpoint := js "users/" ++ userId ++ js "/properties";
     params := [] |}.

(** The object [userProperties]: its own properties, and whether its
    prototype, [Object.prototype] at first, has been replaced by [null]. *)
Record user_properties := {
  own_properties : gmap jsstring property_value;
  null_prototype : bool;
}.

(** [let userProperties = {}] *)
Definition no_properties : user_properties :=
  {| own_properties := ∅; null_prototype := false |}.

(** The assignment [userProperties[key] = value].  While the prototype is
    [Object.prototype], the name [__proto__] reaches the inherited setter:
    [null] replaces the prototype, a string or [undefined] does nothing, and
    no own property is created.  Once the prototype is [null] the name is
    one like any other. *)
Definition set_property (userProperties : user_properties) (key : jsstring)
    (value : property_value) : user_properties :=
  if bool_decide (key = PROTO) && negb (null_prototype userProperties) then
    match value with
    | PropNull =>
        {| own_properties := own_properties userProperties;
           null_prototype := true |}
    | PropString _ | PropMissing => userProperties
    end
  else
    {| own_properties := <[key := value]> (own_properties userProperties);
       null_prototype := null_prototype userProperties |}.

(** [userProperties[prop.key] = prop.value] for every listed property. *)
Definition collect_properties (l : list property) : user_properties :=
  foldl (λ userProperties prop,
           set_property userProperties (prop_key prop) (prop_value prop))
    no_properties l.

(** The loop over [Object.entries(idpClaims)] for one token's claims. *)
Fixpoint project (entries : object) (token : gmap jsstring value)
    : gmap jsstring value :=
  match entries with
  | [] => token
  | (claimName, claimValue) :: entries' =>
      if startsWith claimName [UNDERSCORE] then project entries' token
      else project entries' (<[js "idp_" ++ claimName := claimValue]> token)
  end.

(** The key-value object built from the response: [data.properties], or
    else the top-level [properties], when it is an array. *)
Definition read_properties (propertiesResponse : response)
    : user_properties :=
  match
    match data propertiesResponse ≫= data_properties with
    | Some l => Some l
    | None => properties propertiesResponse
    end
  with
  | Some l => collect_properties l
  | None => no_properties
  end.

(** [userProperties.idp_claims], when it is truthy: an own property, for
    neither prototype has one of that name. *)
Definition stored_claims (userProperties : user_properties)
    : option jsstring :=
  match own_properties userProperties !! IDP_CLAIMS_PROPERTY_KEY with
  | Some (PropString s) => truthy (Some s)
  | Some PropNull | Some PropMissing | None => None
  end.

Definition add_claims (entries : object) : M unit := λ h,
  (Normal (),
   {| requests := requests h;
      accessToken := project entries (accessToken h);
      idToken := project entries (idToken h) |}).

(** The counter [claimsAdded] after the loop. *)
Definition claimsAdded (entries : object) : nat :=
  length (List.filter (λ e, negb (startsWith e.1 [UNDERSCORE])) entries).

(** [idpClaims._provider], for a value [JSON.parse] returned: an own
    property of an object; an array, a string, a number and a boolean have
    no property of that name; [None] is the TypeError for [null]. *)
Definition get_provider (idpClaims : value) : option value :=
  match idpClaims with
  | VUndefined | VNull => None
  | VObj o => Some (default VUndefined (obj_get o (js "_provider")))
  | VBool _ | VNum _ | VStr _ | VArr _ => Some VUndefined
  end.

(** The closing [if (claimsAdded > 0) console.log(...)]: the template
    literal of the message applies [ToString] to
    [idpClaims._provider || "unknown"]. *)
Definition log_claims_added (claimsAdded : nat) (idpClaims : value) : M unit :=
  match claimsAdded with
  | O => mret ()
  | S _ =>
      match
        p ← get_provider idpClaims;
        ToString (if ToBoolean p then p else VStr (js "unknown"))
      with
      | Some _ => mret ()
      | None => throw TypeError
      end
  end.

(** [event.user?.id || event.context?.user?.id] *)
Definition resolve_user_id (event : tokens_event) : option jsstring :=
  match truthy (event_user_id event) with
  | Some id => Some id
  | None => truthy (context_user_id event)
  end.

Definition handleTokensGeneration (env : environment) (event : tokens_event)
    : M unit :=
  match resolve_user_id event with
  | None => return_
  | Some userId =>
      await (createKindeAPI env);;
      userProperties ←
        try_catch
          (propertiesResponse ← send env (user_properties_request userId);
           mret (read_properties propertiesResponse))
          (λ error, return_);
      match stored_claims userProperties with
      | None => return_
      | Some text =>
          idpClaims ←
            try_catch
              (match JSON_parse text with
               | Some parsed => mret parsed
               | None => throw SyntaxError
               end)
              (λ error, return_);
          match Object_entries idpClaims with
          | None => throw TypeError
          | Some entries =>
              add_claims entries;;
              log_claims_added (claimsAdded entries) idpClaims
          end
      end
  end.

(** An invocation on a host that has seen no request and whose token claims
    are [access] and [id]. *)
Definition fresh (access id : gmap jsstring value) : host :=
  {| requests := []; accessToken := access; idToken := id |}.

(** [h] after the requests [rs] have been sent. *)
Definition sent (h : host) (rs : list request) : host :=
  {| requests := requests h ++ rs;
     accessToken := accessToken h; idToken := idToken h |}.

End Workflows.

(** ** The integers as numbers

    The integers printed in decimal, with the three numbers that are not
    finite: the part of Number the examples below are written in.  Of a
    literal, the sign and the integer part are read; a literal whose integer
    part is not zero and whose exponent is 309 or more is beyond the finite
    numbers and reads as an infinity. *)

Inductive integer_number :=
| Integer (z : Z)
| PositiveInfinity
| NegativeInfinity
| NaN.

Fixpoint uint_of_string (s : jsstring) : uint :=
  match s with
  | [] => Nil
  | c :: s' =>
      if is_digit c then
        match N.to_nat (c - 48) with
        | 0%nat => D0 | 1%nat => D1 | 2%nat => D2 | 3%nat => D3 | 4%nat => D4
        | 5%nat => D5 | 6%nat => D6 | 7%nat => D7 | 8%nat => D8 | _ => D9
        end (uint_of_string s')
      else Nil
  end.

Definition string_of_Z (z : Z) : jsstring :=
  match Z.to_int z with
  | Pos d => string_of_uint d
  | Neg d => MINUS :: string_of_uint d
  end.

Definition Z_of_string (s : jsstring) : Z :=
  match s with
  | c :: s' =>
      if c =? MINUS then Z.of_int (Neg (uint_of_string s'))
      else Z.of_int (Pos (uint_of_string s))
  | [] => 0%Z
  end.

(** The text after the [e] or [E] of a literal that has an exponent. *)
Fixpoint exponent_text (s : jsstring) : option jsstring :=
  match s with
  | [] => None
  | c :: s' => if (c =? 101) || (c =? 69) then Some s' else exponent_text s'
  end.

(** Whether the exponent of a literal is 309 or more. *)
Definition huge_exponent (s : jsstring) : bool :=
  match exponent_text s with
  | Some (c :: e) =>
      if c =? MINUS then false
      else 309 <=? N.of_uint (uint_of_string (if c =? PLUS then e else c :: e))
  | Some [] | None => false
  end.

Definition integer_of_string (s : jsstring) : integer_number :=
  let z := Z_of_string s in
  if huge_exponent s && negb (z =? 0)%Z
  then (if (z <? 0)%Z then NegativeInfinity else PositiveInfinity)
  else Integer z.

Definition string_of_integer (n : integer_number) : jsstring :=
  match n with
  | Integer z => string_of_Z z
  | PositiveInfinity => js "Infinity"
  | NegativeInfinity => js "-Infinity"
  | NaN => js "NaN"
  end.

Definition integers : Number :=
  {| number := integer_number;
     NumberToString := string_of_integer;
     StringToNumber := integer_of_string;
     isFinite := λ n, match n with Integer _ => true | _ => false end;
     NumberToBoolean := λ n,
       match n with
       | Integer z => negb (z =? 0)%Z
       | PositiveInfinity | NegativeInfinity => true
       | NaN => false
       end |}.

(** [jsq s] is the text [s] with every apostrophe standing for a double
    quote, to write JSON texts down. *)
Definition jsq (s : string) : jsstring :=
  List.map (λ c, if c =? 39 then QUOTE else c) (js s).

(** An integer as a claim value. *)
Definition VInt (z : Z) : @value integers := @VNum integers (Integer z).

(** [Infinity] as a claim value. *)
Definition VInfinity : @value integers := @VNum integers PositiveInfinity.

(** ** Example inputs *)

Section Examples.
Context {Num : Number}.

(** A login through the provider [google] that speaks [oauth2]. *)
Definition social_login (idTokenClaims : option (list (jsstring * value)))
    (user : option jsstring) : auth_event :=
  {| auth_provider :=
       Some {| protocol := Some (js "oauth2");
               provider_name := js "google";
               claims := idTokenClaims |};
     auth_user_id := user |}.

(** The claims of a login through Google. *)
Definition raw_claims : list (jsstring * value) :=
  [ (js "sub", VStr (js "u1")); (js "email", VStr (js "a@b.com"));
    (js "nonce", VStr (js "n"));
    (js "iss", VStr (js "https://accounts.google.com")) ].

End Examples.

(** The creation is rejected because the property already exists. *)
Definition already_exists : settled response :=
  Rejected (ApiRejection PropertyAlreadyExists).

Definition token_request : tokens_event :=
  {| event_user_id := Some (js "u1"); context_user_id := None |}.

Definition empty_response : response := {| data := None; properties := None |}.

Definition listing (l : list property) : response :=
  {| data := Some {| data_properties := Some l |}; properties := None |}.

(** A store that lists the property definitions [definitions], settles the
    creation of a property as [creation], accepts every write, and holds
    [stored] as the [idp_claims] of every user. *)
Definition store (definitions : list property) (creation : settled response)
    (stored : option jsstring) : environment :=
  {| createKindeAPI := Resolved ();
     respond := λ r,
       match req_method r with
       | GET =>
           if bool_decide (endpoint r = js "properties")
           then Resolved (listing definitions)
           else Resolved (listing
                  [ {| prop_key := IDP_CLAIMS_PROPERTY_KEY;
                       prop_value :=
                         match stored with
                         | Some text => PropString text
                         | None => PropNull
                         end |} ])
       | POST => creation
       | PATCH => Resolved empty_response
       end;
     now := js "2026-01-01T00:00:00.000Z" |}.

(** An environment in which the client cannot be created. *)
Definition no_client : environment :=
  {| createKindeAPI := Rejected (Error (js "M2M client is not configured"));
     respond := λ _, Resolved empty_response;
     now := js "2026-01-01T00:00:00.000Z" |}.

(** An environment in which every request is rejected. *)
Definition unreachable : environment :=
  {| createKindeAPI := Resolved ();
     respond := λ _, Rejected (ApiRejection (OtherFailure (js "timeout")));
     now := js "2026-01-01T00:00:00.000Z" |}.

(** An environment in which every response is empty. *)
Definition silent : environment :=
  {| createKindeAPI := Resolved ();
     respond := λ _, Resolved empty_response;
     now := js "2026-01-01T00:00:00.000Z" |}.

(** The provider of [social_login]. *)
Definition google (idTokenClaims : option (list (jsstring * @value integers)))
    : @provider integers :=
  {| protocol := Some (js "oauth2");
     provider_name := js "google";
     claims := idTokenClaims |}.

(** The property definition the capture needs. *)
Definition idp_claims_definition : property :=
  {| prop_key := IDP_CLAIMS_PROPERTY_KEY; prop_value := PropMissing |}.

(** Claims with names that start with an underscore: one a metadata name,
    one [__proto__], one without a value. *)
Definition underscored_claims : list (jsstring * @value integers) :=
  [ (js "sub", VStr (js "u1"));
    (js "_provider", VStr (js "other"));
    (js "__proto__", VStr (js "x"));
    (js "_hint", VNull);
    (js "email", VStr (js "a@b.com")) ].

(** The claims of a login whose provider sends nested data. *)
Definition nested_claims : list (jsstring * @value integers) :=
  [ (js "sub", VStr (js "u1"));
    (js "groups", VArr [VStr (js "admin"); VInt 7; VArr []]);
    (js "address",
     VObj [ (js "city", VStr (js "Brno"));
            (js "geo", VObj [ (js "lat", VInt 49);
                              (js "ids", VArr [VInt 1; VNull]) ]) ]);
    (js "iat", VInt 1700000000);
    (js "flags", VObj []) ].

(** [starts_value text]: [text] starts with a code unit that is neither
    white space nor a closing bracket. *)
Definition starts_value (text : jsstring) : Prop :=
  match text with
  | c :: _ => is_ws c = false ∧ c ≠ RBRACKET
  | [] => False
  end.

(** [ends_number tail]: a number literal followed by [tail] ends where
    [tail] starts. *)
Definition ends_number (tail : jsstring) : Prop :=
  match tail with
  | [] => True
  | c :: _ => is_number_unit c = false
  end.

Section Reading.
Context {Num : Number}.

(** [reads_back gap v]: when [v] holds data, its text with the indentation
    unit [gap] starts like a value and, followed by anything that ends a
    number, is read back as [v] with [null] for the numbers that are not
    finite. *)
Definition reads_back (gap : jsstring) (v : value) : Prop :=
  is_data v = true →
  ∀ indent tail,
    Forall (λ c, is_ws c = true) indent → ends_number tail →
    ∃ text,
      SerializeJSONProperty gap indent v = Some text
      ∧ starts_value text
      ∧ ∃ fuel, parse_value fuel (text ++ tail) = Some (as_written v, tail).

End Reading.

(** * Properties *)

(** [lia] reasons about division by a constant. *)
Ltac Zify.zify_post_hook ::= Z.to_euclidean_division_equations.

Section Properties.
Context {Num : Number}.
Implicit Types (o entries : list (jsstring * value)) (k : jsstring) (v : value).

(** ** Objects *)

Lemma obj_get_define_eq o k v : obj_get (obj_define o k v) k = Some v.
Proof.
  induction o as [|[k' v'] o IH]; simpl.
  - by rewrite bool_decide_eq_true_2.
  - destruct (decide (k' = k)) as [->|Hne].
    + rewrite bool_decide_eq_true_2 by done. simpl.
      by rewrite bool_decide_eq_true_2.
    + rewrite bool_decide_eq_false_2 by done. simpl.
      by rewrite bool_decide_eq_false_2.
Qed.

Lemma obj_get_define_ne o k k' v :
  k ≠ k' → obj_get (obj_define o k v) k' = obj_get o k'.
Proof.
  intros Hne. induction o as [|[k0 v0] o IH]; simpl.
  - by rewrite bool_decide_eq_false_2.
  - destruct (decide (k0 = k)) as [->|Hne0].
    + rewrite bool_decide_eq_true_2 by done. simpl.
      by rewrite !bool_decide_eq_false_2.
    + rewrite bool_decide_eq_false_2 by done. simpl. by rewrite IH.
Qed.

Lemma obj_define_fresh o k v : k ∉ keys o → obj_define o k v = o ++ [(k, v)].
Proof.
  induction o as [|[k' v'] o IH]; simpl; [done|].
  rewrite not_elem_of_cons. intros [Hne Hnin].
  rewrite bool_decide_eq_false_2 by done. by rewrite IH.
Qed.

Lemma elem_of_keys_obj_define o k v k' :
  k' ∈ keys (obj_define o k v) ↔ k' = k ∨ k' ∈ keys o.
Proof.
  induction o as [|[k0 v0] o IH]; simpl.
  - rewrite list_elem_of_singleton, elem_of_nil. tauto.
  - destruct (decide (k0 = k)) as [->|Hne0].
    + rewrite bool_decide_eq_true_2 by done. simpl.
      rewrite elem_of_cons. tauto.
    + rewrite bool_decide_eq_false_2 by done. simpl.
      rewrite !elem_of_cons, IH. tauto.
Qed.

Lemma NoDup_keys_obj_define o k v :
  NoDup (keys o) → NoDup (keys (obj_define o k v)).
Proof.
  induction o as [|[k0 v0] o IH]; simpl.
  - intros _. apply NoDup_singleton.
  - rewrite NoDup_cons. intros [Hnin Hnd].
    destruct (decide (k0 = k)) as [->|Hne0].
    + rewrite bool_decide_eq_true_2 by done. simpl. by apply NoDup_cons.
    + rewrite bool_decide_eq_false_2 by done. simpl. apply NoDup_cons.
      split; [|by apply IH].
      rewrite elem_of_keys_obj_define. intros [?|?]; done.
Qed.

Lemma obj_get_Some_elem_of o k v : obj_get o k = Some v → (k, v) ∈ o.
Proof.
  induction o as [|[k' v'] o IH]; simpl; [done|].
  destruct (decide (k' = k)) as [->|Hne].
  - rewrite bool_decide_eq_true_2 by done. intros [= ->]. by left.
  - rewrite bool_decide_eq_false_2 by done. intros H'. right. by apply IH.
Qed.

Lemma obj_get_None o k : obj_get o k = None ↔ k ∉ keys o.
Proof.
  induction o as [|[k' v'] o IH]; simpl.
  - split; [intros _; apply not_elem_of_nil|done].
  - rewrite not_elem_of_cons. destruct (decide (k' = k)) as [->|Hne].
    + rewrite bool_decide_eq_true_2 by done. split; [done|]. by intros [? _].
    + rewrite bool_decide_eq_false_2 by done.
      rewrite IH. split; [by split|by intros [_ ?]].
Qed.

Lemma elem_of_obj_get o k v : NoDup (keys o) → (k, v) ∈ o → obj_get o k = Some v.
Proof.
  induction o as [|[k' v'] o IH]; simpl.
  - intros _ []%elem_of_nil.
  - rewrite NoDup_cons. intros [Hnin Hnd] [[= -> ->]|Hin]%elem_of_cons.
    + by rewrite bool_decide_eq_true_2.
    + rewrite bool_decide_eq_false_2; [by apply IH|].
      intros ->. apply Hnin. by apply (list_elem_of_fmap_2 fst) in Hin.
Qed.

Lemma obj_assign_define o k v : k ≠ PROTO → obj_assign o k v = obj_define o k v.
Proof. intros Hne. unfold obj_assign. by rewrite bool_decide_eq_false_2. Qed.

Lemma obj_assign_proto o v : obj_assign o PROTO v = o.
Proof. unfold obj_assign. by rewrite bool_decide_eq_true_2. Qed.

(** ** The claim filter *)

Lemma filter_loop_get entries : ∀ claimsToStore k,
  NoDup (keys entries) →
  obj_get (filter_loop entries claimsToStore) k =
    match obj_get entries k with
    | Some v => if kept k v then Some v else obj_get claimsToStore k
    | None => obj_get claimsToStore k
    end.
Proof.
  induction entries as [|[k0 v0] entries IH]; intros acc k; simpl; [done|].
  rewrite NoDup_cons. intros [Hnin Hnd]. rewrite IH by done.
  destruct (decide (k0 = k)) as [->|Hne].
  - rewrite bool_decide_eq_true_2 by done.
    apply obj_get_None in Hnin. rewrite Hnin. unfold kept.
    destruct (negb (ignored k) && negb (is_nullish v0)); simpl; [|done].
    destruct (decide (k = PROTO)) as [->|Hp].
    + rewrite bool_decide_eq_true_2 by done. simpl. by rewrite obj_assign_proto.
    + rewrite bool_decide_eq_false_2 by done. simpl.
      rewrite obj_assign_define by done. apply obj_get_define_eq.
  - rewrite bool_decide_eq_false_2 by done.
    assert (obj_get
      (if negb (ignored k0) && negb (is_nullish v0)
       then obj_assign acc k0 v0 else acc) k = obj_get acc k) as ->; [|done].
    destruct (negb (ignored k0) && negb (is_nullish v0)); [|done].
    unfold obj_assign. case_bool_decide; [done|].
    by apply obj_get_define_ne.
Qed.

(** What the filter keeps, for every claim name: the value of the input,
    when the entry is [kept]. *)
Lemma filter_claims_get idTokenClaims k :
  NoDup (keys idTokenClaims) →
  obj_get (filter_claims idTokenClaims) k =
    v ← obj_get idTokenClaims k; if kept k v then Some v else None.
Proof.
  intros Hnd. unfold filter_claims. rewrite filter_loop_get by done.
  by destruct (obj_get idTokenClaims k).
Qed.

(** The output has no ignored name and no [null] or [undefined] value. *)
Lemma filter_claims_sound idTokenClaims k v :
  NoDup (keys idTokenClaims) →
  obj_get (filter_claims idTokenClaims) k = Some v →
  obj_get idTokenClaims k = Some v ∧ ignored k = false ∧ is_nullish v = false.
Proof.
  intros Hnd. rewrite filter_claims_get by done.
  destruct (obj_get idTokenClaims k) as [v'|]; simpl; [|done].
  unfold kept.
  destruct (ignored k), (is_nullish v') eqn:Hn; simpl; try done.
  case_bool_decide; simpl; [done|]. by intros [= <-].
Qed.

(** Every other entry passes, unless it is named [__proto__]. *)
Lemma filter_claims_complete idTokenClaims k v :
  NoDup (keys idTokenClaims) →
  obj_get idTokenClaims k = Some v →
  ignored k = false → is_nullish v = false → k ≠ PROTO →
  obj_get (filter_claims idTokenClaims) k = Some v.
Proof.
  intros Hnd Hget Hi Hn Hp. rewrite filter_claims_get, Hget by done. simpl.
  unfold kept. by rewrite Hi, Hn, bool_decide_eq_false_2.
Qed.

(** The loop never creates a property named [__proto__]. *)
Lemma filter_claims_proto idTokenClaims :
  NoDup (keys idTokenClaims) → obj_get (filter_claims idTokenClaims) PROTO = None.
Proof.
  intros Hnd. rewrite filter_claims_get by done.
  destruct (obj_get idTokenClaims PROTO) as [v|]; simpl; [|done].
  unfold kept. rewrite bool_decide_eq_true_2 by done.
  by rewrite andb_false_r.
Qed.

Lemma metadata_not_proto :
  js "_provider" ≠ PROTO ∧ js "_last_updated" ≠ PROTO.
Proof. split; intros H; vm_compute in H; discriminate H. Qed.

(** The names of the filter's output: those the loop started with, and
    those of the entries it keeps. *)
Lemma elem_of_keys_filter_loop_kept entries : ∀ claimsToStore k,
  k ∈ keys (filter_loop entries claimsToStore)
  ↔ k ∈ keys claimsToStore ∨ ∃ v, (k, v) ∈ entries ∧ kept k v = true.
Proof.
  induction entries as [|[k0 v0] entries IH]; intros acc k; simpl.
  - split; [by left|]. by intros [?|(v & []%elem_of_nil & _)].
  - rewrite IH. unfold kept.
    destruct (negb (ignored k0) && negb (is_nullish v0)) eqn:Hc.
    + unfold obj_assign. destruct (decide (k0 = PROTO)) as [->|Hp].
      * rewrite bool_decide_eq_true_2 by done. split.
        -- intros [?|(v & Hin & Hk)]; [by left|].
           right. exists v. split; [by right|done].
        -- intros [?|(v & [[= -> ->]|Hin]%elem_of_cons & Hk)]; [by left| |].
           ++ rewrite bool_decide_eq_true_2 in Hk by done.
              by rewrite andb_false_r in Hk.
           ++ right. by exists v.
      * rewrite bool_decide_eq_false_2 by done.
        rewrite elem_of_keys_obj_define. split.
        -- intros [[->|?]|(v & Hin & Hk)]; [|by left|].
           ++ right. exists v0. split; [by left|].
              by rewrite Hc, bool_decide_eq_false_2.
           ++ right. exists v. split; [by right|done].
        -- intros [?|(v & [[= -> ->]|Hin]%elem_of_cons & Hk)];
             [left; by right|left; by left|].
           right. by exists v.
    + split.
      * intros [?|(v & Hin & Hk)]; [by left|].
        right. exists v. split; [by right|done].
      * intros [?|(v & [[= -> ->]|Hin]%elem_of_cons & Hk)]; [by left| |].
        -- by rewrite Hc in Hk.
        -- right. by exists v.
Qed.

(** The names of the snapshot: the two metadata fields and the names of the
    raw claims the filter keeps. *)
Lemma elem_of_keys_snapshot_kept p idTokenClaims time k :
  k ∈ keys (snapshot p idTokenClaims time)
  ↔ k = js "_provider" ∨ k = js "_last_updated"
    ∨ ∃ v, (k, v) ∈ idTokenClaims ∧ kept k v = true.
Proof.
  destruct metadata_not_proto as [Hp Hl]. unfold snapshot.
  rewrite !obj_assign_define by done.
  rewrite !elem_of_keys_obj_define. unfold filter_claims.
  rewrite elem_of_keys_filter_loop_kept. simpl.
  rewrite elem_of_nil. tauto.
Qed.

(** ** The capture workflow *)

(** C8. When the provider descriptor is absent, or its protocol is not
    [oauth2] (an absent protocol included), or the identity-token claims are
    absent, the capture handler returns and leaves the host as it was: it
    sends no request, so it lists, creates and writes nothing. *)
Theorem capture_unsupported_is_noop env event h :
  (auth_provider event = None
   ∨ ∃ p, auth_provider event = Some p
          ∧ (protocol p ≠ Some (js "oauth2") ∨ claims p = None)) →
  captureIdpClaimsWorkflow env event h = (Return, h).
Proof.
  unfold captureIdpClaimsWorkflow.
  intros [->|(p & -> & [Hproto|Hclaims])]; [done| |].
  - by rewrite bool_decide_eq_false_2.
  - rewrite Hclaims. by case_bool_decide.
Qed.

(** C9. With a provider whose protocol is [oauth2] and whose identity-token
    claims are present, an absent (or empty) user identifier makes the
    capture handler throw [Error("User ID is required")], before any
    request is sent. *)
Theorem capture_missing_user_throws env event h p idTokenClaims :
  auth_provider event = Some p →
  protocol p = Some (js "oauth2") →
  claims p = Some idTokenClaims →
  truthy (auth_user_id event) = None →
  captureIdpClaimsWorkflow env event h
  = (Throw (Error (js "User ID is required")), h).
Proof.
  unfold captureIdpClaimsWorkflow. intros -> Hproto -> ->.
  by rewrite bool_decide_eq_true_2.
Qed.

Lemma sent_sent h rs rs' : sent (sent h rs) rs' = sent h (rs ++ rs').
Proof. unfold sent; simpl. by rewrite app_assoc. Qed.

Lemma kindeAPI_run env r h :
  send env r h
  = (match respond env r with
     | Resolved a => Normal a
     | Rejected e => Throw e
     end, sent h [r]).
Proof.
  unfold send, kindeAPI. destruct r as [m ep ps]; simpl.
  by destruct (respond env _).
Qed.

(** What the capture handler does once the event is accepted, the client
    is created and the listing does not show the property: it asks for the
    creation; a rejection is thrown again and nothing is written; otherwise
    the snapshot is written. *)
Lemma capture_creates env event h p idTokenClaims userId r d :
  auth_provider event = Some p →
  protocol p = Some (js "oauth2") →
  claims p = Some idTokenClaims →
  truthy (auth_user_id event) = Some userId →
  createKindeAPI env = Resolved () →
  respond env list_properties_request = Resolved r →
  data r = Some d →
  listed (data_properties d) = false →
  captureIdpClaimsWorkflow env event h =
    match respond env create_property_request with
    | Rejected e => (Throw e, sent h [list_properties_request; create_property_request])
    | Resolved _ =>
        let write :=
          patch_request userId
            (stringify_object (snapshot p idTokenClaims (now env)) 2) in
        (match respond env write with
         | Resolved _ => Normal ()
         | Rejected e => Throw e
         end,
         sent h [list_properties_request; create_property_request; write])
    end.
Proof.
  unfold captureIdpClaimsWorkflow. intros -> Hproto -> -> Hapi Hlist Hd Hnl.
  rewrite bool_decide_eq_true_2 by done. simpl.
  unfold mbind, mret, M_bind, M_ret, try_catch, await, throw.
  rewrite Hapi. simpl. rewrite kindeAPI_run, Hlist. simpl.
  rewrite Hd, Hnl. simpl. rewrite kindeAPI_run, sent_sent. simpl.
  destruct (respond env create_property_request) as [r'|e]; [|done].
  rewrite kindeAPI_run, sent_sent. simpl.
  by destruct (respond env (patch_request _ _)).
Qed.

(** X2. When the listing shows the property, nothing is created: the
    handler sends the listing and the write of the snapshot, and its
    outcome is the outcome of the write. *)
Lemma capture_listed env event h p idTokenClaims userId r d :
  auth_provider event = Some p →
  protocol p = Some (js "oauth2") →
  claims p = Some idTokenClaims →
  truthy (auth_user_id event) = Some userId →
  createKindeAPI env = Resolved () →
  respond env list_properties_request = Resolved r →
  data r = Some d →
  listed (data_properties d) = true →
  captureIdpClaimsWorkflow env event h =
    let write :=
      patch_request userId
        (stringify_object (snapshot p idTokenClaims (now env)) 2) in
    (match respond env write with
     | Resolved _ => Normal ()
     | Rejected e => Throw e
     end,
     sent h [list_properties_request; write]).
Proof.
  unfold captureIdpClaimsWorkflow. intros -> Hproto -> -> Hapi Hlist Hd Hl.
  rewrite bool_decide_eq_true_2 by done. simpl.
  unfold mbind, mret, M_bind, M_ret, try_catch, await, throw.
  rewrite Hapi. simpl. rewrite kindeAPI_run, Hlist. simpl.
  rewrite Hd, Hl. simpl. rewrite kindeAPI_run, sent_sent. simpl.
  by destruct (respond env (patch_request _ _)).
Qed.

(** C1, as the code has it.  When the listing does not show the property,
    the handler asks for its creation.  A rejection of that request, the
    report that the property already exists included, is thrown again: the
    invocation fails after the two requests and no snapshot is written.
    Only when the request resolves does the handler go on to write the
    snapshot. *)
Theorem capture_creation_outcome env event h p idTokenClaims userId r d :
  auth_provider event = Some p →
  protocol p = Some (js "oauth2") →
  claims p = Some idTokenClaims →
  truthy (auth_user_id event) = Some userId →
  createKindeAPI env = Resolved () →
  respond env list_properties_request = Resolved r →
  data r = Some d →
  listed (data_properties d) = false →
  (∀ e, respond env create_property_request = Rejected e →
     captureIdpClaimsWorkflow env event h
     = (Throw e, sent h [list_properties_request; create_property_request]))
  ∧ (∀ r', respond env create_property_request = Resolved r' →
     let write :=
       patch_request userId
         (stringify_object (snapshot p idTokenClaims (now env)) 2) in
     captureIdpClaimsWorkflow env event h
     = (match respond env write with
        | Resolved _ => Normal ()
        | Rejected e => Throw e
        end,
        sent h [list_properties_request; create_property_request; write])).
Proof.
  intros Hp Hproto Hc Hu Hapi Hlist Hd Hnl.
  split; [intros e He|intros r' Hr'];
    rewrite (capture_creates _ _ _ _ _ _ _ _ Hp Hproto Hc Hu Hapi Hlist Hd Hnl).
  - by rewrite He.
  - by rewrite Hr'.
Qed.

(** ** What the capture handler writes *)

(** Every write of an invocation carries the serialized snapshot of the
    event's claims. *)
Lemma capture_only_writes_snapshot env event h p idTokenClaims r :
  auth_provider event = Some p →
  claims p = Some idTokenClaims →
  r ∈ requests (captureIdpClaimsWorkflow env event h).2 →
  r ∉ requests h →
  req_method r = PATCH →
  ∃ userId,
    r = patch_request userId
          (stringify_object (snapshot p idTokenClaims (now env)) 2).
Proof.
  intros Hp Hc Hin Hnew Hm. revert Hin.
  unfold captureIdpClaimsWorkflow. rewrite Hp, Hc.
  destruct (negb _); [done|].
  destruct (truthy (auth_user_id event)) as [userId|]; [|done].
  unfold mbind, mret, M_bind, M_ret, try_catch, await, throw.
  destruct (createKindeAPI env); simpl; [|done].
  rewrite kindeAPI_run.
  assert (∀ l, r ∈ requests (sent h l) →
            Exists (λ r', r = r') l) as Hsent.
  { intros l [?|?]%elem_of_app; [done|]. by apply Exists_exists; eauto. }
  assert (∀ l, Exists (λ r', r = r') l →
            Forall (λ r', req_method r' = PATCH →
              ∃ userId, r' = patch_request userId
                (stringify_object (snapshot p idTokenClaims (now env)) 2)) l →
            ∃ userId, r = patch_request userId
              (stringify_object (snapshot p idTokenClaims (now env)) 2))
    as Hpick.
  { intros l (r' & Hr' & <-)%Exists_exists Hall.
    rewrite Forall_forall in Hall. by apply Hall. }
  destruct (respond env list_properties_request) as [resp|]; simpl;
    [|intros Hin%Hsent; apply (Hpick _ Hin); by repeat constructor].
  destruct (data resp) as [d|]; simpl;
    [|intros Hin%Hsent; apply (Hpick _ Hin); by repeat constructor].
  destruct (listed (data_properties d)); simpl.
  - rewrite kindeAPI_run, sent_sent.
    destruct (respond env (patch_request _ _)); simpl;
      intros Hin%Hsent; apply (Hpick _ Hin);
      repeat constructor; try done; by eauto.
  - rewrite kindeAPI_run, sent_sent.
    destruct (respond env create_property_request); simpl.
    + rewrite kindeAPI_run, sent_sent.
      destruct (respond env (patch_request _ _)); simpl;
        intros Hin%Hsent; apply (Hpick _ Hin);
        repeat constructor; try done; by eauto.
    + intros Hin%Hsent. apply (Hpick _ Hin). by repeat constructor.
Qed.

(** ** The projection workflow *)

Lemma idp_prefix_inj k k' : js "idp_" ++ k = js "idp_" ++ k' → k = k'.
Proof. apply app_inv_head. Qed.

(** A name that no projected entry maps to keeps its claim. *)
Lemma project_lookup_other entries : ∀ (token : gmap (list N) value) name,
  (∀ k v, (k, v) ∈ entries → startsWith k [UNDERSCORE] = false →
          name ≠ js "idp_" ++ k) →
  project entries token !! name = token !! name.
Proof.
  induction entries as [|[k0 v0] entries IH]; intros token name Hother; simpl.
  - done.
  - assert (∀ k v, (k, v) ∈ entries → startsWith k [UNDERSCORE] = false →
                   name ≠ js "idp_" ++ k) as Htail.
    { intros k v Hin. apply (Hother k v). by right. }
    destruct (startsWith k0 [UNDERSCORE]) eqn:Hs; rewrite IH by done; [done|].
    apply lookup_insert_ne. intros Heq. by eapply (Hother k0 v0); [left|..].
Qed.

(** An entry whose name does not start with an underscore is projected
    under [idp_] and its name, with its value. *)
Lemma project_lookup entries : ∀ (token : gmap (list N) value) k v,
  NoDup (keys entries) → (k, v) ∈ entries →
  startsWith k [UNDERSCORE] = false →
  project entries token !! (js "idp_" ++ k) = Some v.
Proof.
  induction entries as [|[k0 v0] entries IH]; intros token k v; simpl.
  - intros _ []%elem_of_nil.
  - rewrite NoDup_cons.
    intros [Hnin Hnd] [[= -> ->]|Hin]%elem_of_cons Hs.
    + rewrite Hs, project_lookup_other; [apply lookup_insert_eq|].
      intros k' v' Hin' _ ->%idp_prefix_inj.
      apply Hnin. by apply (list_elem_of_fmap_2 fst) in Hin'.
    + destruct (startsWith k0 [UNDERSCORE]); by apply IH.
Qed.

(** No entry whose name starts with an underscore is projected. *)
Lemma project_lookup_metadata entries (token : gmap (list N) value) k :
  startsWith k [UNDERSCORE] = true →
  project entries token !! (js "idp_" ++ k) = token !! (js "idp_" ++ k).
Proof.
  intros Hs. apply project_lookup_other.
  intros k' v' _ Hs' ->%idp_prefix_inj. congruence.
Qed.

(** The host after the projection of [entries]. *)
Lemma add_claims_run entries h :
  add_claims entries h
  = (Normal (),
     {| requests := requests h;
        accessToken := project entries (accessToken h);
        idToken := project entries (idToken h) |}).
Proof. done. Qed.

Lemma projection_no_user env event h :
  resolve_user_id event = None →
  handleTokensGeneration env event h = (Return, h).
Proof. unfold handleTokensGeneration. by intros ->. Qed.

(** A failure to create the client is outside every [try] block. *)
Lemma projection_client_rejected env event h userId e :
  resolve_user_id event = Some userId →
  createKindeAPI env = Rejected e →
  handleTokensGeneration env event h = (Throw e, h).
Proof.
  unfold handleTokensGeneration. intros -> Hapi.
  unfold mbind, M_bind, await, throw. by rewrite Hapi.
Qed.

(** A rejected request is caught: the handler returns. *)
Lemma projection_fetch_rejected env event h userId e :
  resolve_user_id event = Some userId →
  createKindeAPI env = Resolved () →
  respond env (user_properties_request userId) = Rejected e →
  handleTokensGeneration env event h
  = (Return, sent h [user_properties_request userId]).
Proof.
  unfold handleTokensGeneration. intros -> Hapi Hget.
  unfold mbind, mret, M_bind, M_ret, try_catch, await, throw, return_.
  rewrite Hapi. simpl. by rewrite kindeAPI_run, Hget.
Qed.

(** The closing log leaves the host as it is. *)
Lemma log_claims_added_run n idpClaims h :
  log_claims_added n idpClaims h = ((log_claims_added n idpClaims h).1, h).
Proof.
  unfold log_claims_added. destruct n as [|n]; [done|].
  by destruct (_ ≫= _).
Qed.

(** It completes, or throws a TypeError. *)
Lemma log_claims_added_cases n idpClaims h :
  (log_claims_added n idpClaims h).1 = Normal ()
  ∨ (log_claims_added n idpClaims h).1 = Throw TypeError.
Proof.
  unfold log_claims_added. destruct n as [|n]; [by left|].
  destruct (_ ≫= _); [by left|by right].
Qed.

(** Its outcome does not depend on the host. *)
Lemma log_claims_added_host n idpClaims h h' :
  (log_claims_added n idpClaims h).1 = (log_claims_added n idpClaims h').1.
Proof.
  unfold log_claims_added. destruct n as [|n]; [done|].
  by destruct (_ ≫= _).
Qed.

Lemma ToString_primitive v :
  primitive v = true ∨ v = VUndefined → is_Some (ToString v).
Proof. intros [Hv| ->]; [destruct v as [| |[]| | | |]|]; by eauto. Qed.

(** It completes when [_provider] is missing or is a string, a number, a
    boolean or [null]. *)
Lemma log_claims_added_normal n idpClaims h :
  match get_provider idpClaims with
  | Some p => primitive p = true ∨ p = VUndefined
  | None => False
  end →
  log_claims_added n idpClaims h = (Normal (), h).
Proof.
  unfold log_claims_added. destruct n as [|n]; [done|].
  destruct (get_provider idpClaims) as [p|]; [|done]. intros Hp. simpl.
  destruct (ToString_primitive (if ToBoolean p then p else VStr (js "unknown")))
    as [s ->]; [|done].
  destruct (ToBoolean p); [done|by left].
Qed.

(** What the handler does with the response of the request. *)
Lemma projection_fetched env event h userId r :
  resolve_user_id event = Some userId →
  createKindeAPI env = Resolved () →
  respond env (user_properties_request userId) = Resolved r →
  handleTokensGeneration env event h =
    let h' := sent h [user_properties_request userId] in
    match stored_claims (read_properties r) with
    | None => (Return, h')
    | Some text =>
        match JSON_parse text with
        | None => (Return, h')
        | Some idpClaims =>
            match Object_entries idpClaims with
            | None => (Throw TypeError, h')
            | Some entries =>
                ((log_claims_added (claimsAdded entries) idpClaims h').1,
                 (add_claims entries h').2)
            end
        end
    end.
Proof.
  unfold handleTokensGeneration. intros -> Hapi Hget.
  unfold mbind, mret, M_bind, M_ret, try_catch, await, throw, return_.
  rewrite Hapi. simpl. rewrite kindeAPI_run, Hget. simpl.
  destruct (stored_claims (read_properties r)) as [text|]; [|done].
  destruct (JSON_parse text) as [v|]; [|done].
  destruct (Object_entries v) as [entries|]; [|done]. simpl.
  rewrite log_claims_added_run. f_equal. apply log_claims_added_host.
Qed.

(** ** Strings in JSON text *)

Lemma hex_value_hex_digit d : d < 16 → hex_value (hex_digit d) = Some d.
Proof.
  intros Hd. unfold hex_value, hex_digit, is_digit.
  destruct (N.ltb_spec d 10).
  - replace ((48 <=? 48 + d) && (48 + d <=? 57)) with true; [f_equal; lia|].
    symmetry. apply andb_true_iff. split; apply N.leb_le; lia.
  - replace ((48 <=? 87 + d) && (87 + d <=? 57)) with false.
    + replace ((97 <=? 87 + d) && (87 + d <=? 102)) with true; [f_equal; lia|].
      symmetry. apply andb_true_iff. split; apply N.leb_le; lia.
    + symmetry. apply andb_false_iff. right. apply N.leb_gt. lia.
Qed.

Lemma hex4_unicode_escape c :
  c < 65536 →
  hex4 (hex_digit (c / 4096 mod 16)) (hex_digit (c / 256 mod 16))
       (hex_digit (c / 16 mod 16)) (hex_digit (c mod 16)) = Some c.
Proof.
  intros Hc. unfold hex4. rewrite !hex_value_hex_digit by lia. simpl.
  f_equal. lia.
Qed.

Lemma parse_chars_u h1 h2 h3 h4 tail :
  parse_chars (BACKSLASH :: 117 :: h1 :: h2 :: h3 :: h4 :: tail)
  = u ← hex4 h1 h2 h3 h4; '(s, r) ← parse_chars tail; Some (u :: s, r).
Proof. reflexivity. Qed.

Lemma parse_chars_unicode_escape c tail s r :
  c < 65536 → parse_chars tail = Some (s, r) →
  parse_chars (unicode_escape c ++ tail) = Some (c :: s, r).
Proof.
  intros Hc Htail. unfold unicode_escape.
  change (parse_chars (BACKSLASH :: 117 :: hex_digit (c / 4096 mod 16)
    :: hex_digit (c / 256 mod 16) :: hex_digit (c / 16 mod 16)
    :: hex_digit (c mod 16) :: tail) = Some (c :: s, r)).
  by rewrite parse_chars_u, hex4_unicode_escape, Htail.
Qed.

Lemma parse_chars_literal c tail s r :
  32 ≤ c → c ≠ QUOTE → c ≠ BACKSLASH → parse_chars tail = Some (s, r) →
  parse_chars (c :: tail) = Some (c :: s, r).
Proof.
  intros Hc Hq Hb Htail. cbn [parse_chars].
  rewrite (proj2 (N.eqb_neq _ _) Hq), (proj2 (N.eqb_neq _ _) Hb).
  rewrite (proj2 (N.ltb_ge _ _) Hc). by rewrite Htail.
Qed.

Lemma parse_chars_quote_unit c tail s r :
  parse_chars tail = Some (s, r) →
  parse_chars (quote_unit c ++ tail) = Some (c :: s, r).
Proof.
  intros Htail. unfold quote_unit.
  repeat match goal with
  | |- context [if ?a =? ?b then _ else _] =>
      destruct (N.eqb_spec a b) as [->|?];
        [cbn -[N.eqb N.ltb]; by rewrite Htail|]
  end.
  destruct (N.ltb_spec c 32).
  - apply parse_chars_unicode_escape; [lia|done].
  - by apply parse_chars_literal.
Qed.

(** Reading back what [QuoteJSONString] writes between the quotes. *)
Lemma parse_chars_quote_units s : ∀ rest,
  parse_chars (quote_units s ++ QUOTE :: rest) = Some (s, rest).
Proof.
  assert (∀ n s rest, (length s ≤ n)%nat →
    parse_chars (quote_units s ++ QUOTE :: rest) = Some (s, rest)) as Hn;
    [|intros rest; by apply (Hn (length s))].
  clear s. induction n as [|n IH]; intros [|c s] rest Hlen;
    simpl in Hlen; try done; try lia.
  assert (∀ s', (length s' ≤ n)%nat →
    parse_chars (quote_units s' ++ QUOTE :: rest) = Some (s', rest)) as IH'
    by (intros; by apply IH).
  cbn [quote_units].
  destruct (is_leading_surrogate c) eqn:Hlead.
  - unfold is_leading_surrogate in Hlead.
    apply andb_true_iff in Hlead as [?%N.leb_le ?%N.leb_le].
    destruct s as [|d s].
    + by apply parse_chars_unicode_escape; [lia|].
    + destruct (is_trailing_surrogate d) eqn:Htrail.
      * unfold is_trailing_surrogate in Htrail.
        apply andb_true_iff in Htrail as [?%N.leb_le ?%N.leb_le].
        simpl in Hlen. cbn [app].
        apply parse_chars_literal; [unfold QUOTE, BACKSLASH; lia..|].
        apply parse_chars_literal; [unfold QUOTE, BACKSLASH; lia..|].
        apply IH'. lia.
      * rewrite <-app_assoc.
        apply parse_chars_unicode_escape; [lia|]. apply IH'. lia.
  - destruct (is_trailing_surrogate c) eqn:Htrail; rewrite <-app_assoc.
    + unfold is_trailing_surrogate in Htrail.
      apply andb_true_iff in Htrail as [?%N.leb_le ?%N.leb_le].
      apply parse_chars_unicode_escape; [lia|]. apply IH'. lia.
    + apply parse_chars_quote_unit. apply IH'. lia.
Qed.

(** ** Numbers in JSON text *)

Lemma is_digit_number_unit c : is_digit c = true → is_number_unit c = true.
Proof. unfold is_number_unit. by intros ->. Qed.

Lemma all_digits_number_units s :
  all_digits s = true → forallb is_number_unit s = true.
Proof.
  induction s as [|c s IH]; simpl; [done|].
  intros [Hc Hs]%andb_true_iff. by rewrite is_digit_number_unit, IH.
Qed.

Lemma digits1_number_units s :
  digits1 s = true → forallb is_number_unit s = true.
Proof. destruct s; [done|]. apply all_digits_number_units. Qed.

Lemma exponent_part_number_units s :
  exponent_part s = true → forallb is_number_unit s = true.
Proof.
  destruct s as [|c s]; simpl; [done|].
  destruct ((c =? PLUS) || (c =? MINUS)) eqn:Hsign.
  - intros Hd%digits1_number_units. rewrite Hd, andb_true_r.
    unfold is_number_unit.
    apply orb_true_iff in Hsign as [->| ->]; by rewrite ?orb_true_r.
  - intros [Hc Hs]%andb_true_iff.
    by rewrite is_digit_number_unit, all_digits_number_units.
Qed.

Lemma e_number_unit c :
  (c =? 101) || (c =? 69) = true → is_number_unit c = true.
Proof.
  unfold is_number_unit. intros [->| ->]%orb_true_iff; by rewrite ?orb_true_r.
Qed.

Lemma fraction_part_number_units s : ∀ seen,
  fraction_part seen s = true → forallb is_number_unit s = true.
Proof.
  induction s as [|c s IH]; intros seen; simpl; [done|].
  destruct (is_digit c) eqn:Hd.
  - intros ?%IH. by rewrite is_digit_number_unit.
  - destruct ((c =? 101) || (c =? 69)) eqn:He; [|done].
    intros [_ Hs%exponent_part_number_units]%andb_true_iff.
    by rewrite e_number_unit.
Qed.

Lemma after_int_number_units s :
  after_int s = true → forallb is_number_unit s = true.
Proof.
  destruct s as [|c s]; simpl; [done|].
  destruct (N.eqb_spec c DOT) as [->|_].
  - intros Hs%fraction_part_number_units. by rewrite Hs.
  - destruct ((c =? 101) || (c =? 69)) eqn:He; [|done].
    intros Hs%exponent_part_number_units. by rewrite e_number_unit.
Qed.

Lemma int_digits_number_units s :
  int_digits s = true → forallb is_number_unit s = true.
Proof.
  induction s as [|c s IH]; [done|]. cbn [int_digits].
  destruct (is_digit c) eqn:Hd.
  - intros ?%IH. simpl. by rewrite is_digit_number_unit.
  - apply after_int_number_units.
Qed.

Lemma unsigned_number_units s :
  unsigned_number s = true → forallb is_number_unit s = true.
Proof.
  destruct s as [|c s]; simpl; [done|].
  destruct (N.eqb_spec c 48) as [->|_].
  - intros Hs%after_int_number_units. by rewrite Hs.
  - destruct (is_digit c) eqn:Hd; [|done].
    intros Hs%int_digits_number_units. by rewrite is_digit_number_unit.
Qed.

(** A number literal is made of number units, and starts with a minus sign
    or a digit. *)
Lemma JSONNumber_units s : JSONNumber s = true → forallb is_number_unit s = true.
Proof.
  destruct s as [|c s]; [done|]. cbn [JSONNumber].
  destruct (N.eqb_spec c MINUS) as [->|_].
  - intros Hs%unsigned_number_units. simpl. by rewrite Hs.
  - apply unsigned_number_units.
Qed.

Lemma JSONNumber_head s :
  JSONNumber s = true → ∃ c s', s = c :: s' ∧ (c = MINUS ∨ is_digit c = true).
Proof.
  destruct s as [|c s]; [done|]. cbn [JSONNumber]. intros Hs. exists c, s.
  split; [done|]. destruct (N.eqb_spec c MINUS) as [->|_]; [by left|].
  right. simpl in Hs. destruct (N.eqb_spec c 48) as [->|_]; [done|].
  by destruct (is_digit c).
Qed.

Lemma span_number_app l tail :
  forallb is_number_unit l = true → ends_number tail →
  span_number (l ++ tail) = (l, tail).
Proof.
  intros Hl Hc. induction l as [|a l IH]; simpl.
  - destruct tail as [|c tail]; simpl in *; [done|]. by rewrite Hc.
  - simpl in Hl. apply andb_true_iff in Hl as [-> Hl]. by rewrite IH.
Qed.

Lemma parse_number_literal l tail :
  JSONNumber l = true → ends_number tail →
  parse_number (l ++ tail) = Some (VNum (StringToNumber l), tail).
Proof.
  intros Hl Hc. unfold parse_number.
  by rewrite span_number_app, Hl by (by apply JSONNumber_units || done).
Qed.

(** A value that starts with a minus sign or a digit is a number. *)
Lemma parse_value_number fuel c cs :
  c = MINUS ∨ is_digit c = true →
  parse_value (S fuel) (c :: cs) = parse_number (c :: cs).
Proof.
  intros Hc.
  assert (c = 45 ∨ 48 ≤ c ≤ 57) as Hrange.
  { destruct Hc as [->|[?%N.leb_le ?%N.leb_le]%andb_true_iff]; [by left|lia]. }
  cbn [parse_value].
  repeat match goal with
  | |- context [if c =? ?b then _ else _] =>
      destruct (N.eqb_spec c b) as [->|?];
        [exfalso; unfold LBRACE, LBRACKET, QUOTE in *; lia|]
  end.
  done.
Qed.

(** ** The parser: unfolding, progress and fuel *)

#[local] Arguments parse_value : simpl never.
#[local] Arguments parse_elements : simpl never.
#[local] Arguments parse_members : simpl never.

Lemma parse_value_unfold fuel cs :
  parse_value (S fuel) cs
  = match cs return option (@value Num * list N) with
    | [] => None
    | c :: cs' =>
        if c =? LBRACE then
          match skip_ws cs' with
          | d :: r =>
              if d =? RBRACE then Some (VObj [], r)
              else parse_members fuel [] (d :: r) ≫= λ '(o, r'), Some (VObj o, r')
          | [] => None
          end
        else if c =? LBRACKET then
          match skip_ws cs' with
          | d :: r =>
              if d =? RBRACKET then Some (VArr [], r)
              else parse_elements fuel (d :: r) ≫= λ '(l, r'), Some (VArr l, r')
          | [] => None
          end
        else if c =? QUOTE then
          parse_chars cs' ≫= λ '(s, r), Some (VStr s, r)
        else if c =? 116 then
          strip_prefix (js "true") cs ≫= λ r, Some (VBool true, r)
        else if c =? 102 then
          strip_prefix (js "false") cs ≫= λ r, Some (VBool false, r)
        else if c =? 110 then
          strip_prefix (js "null") cs ≫= λ r, Some (VNull, r)
        else parse_number cs
    end.
Proof. by destruct cs. Qed.

Lemma parse_elements_unfold fuel cs :
  parse_elements (S fuel) cs
  = parse_value fuel cs ≫= λ '(v, r),
    match skip_ws r return option (list (@value Num) * list N) with
    | d :: r' =>
        if d =? COMMA then
          parse_elements fuel (skip_ws r') ≫= λ '(l, r''), Some (v :: l, r'')
        else if d =? RBRACKET then Some ([v], r')
        else None
    | [] => None
    end.
Proof. reflexivity. Qed.

Lemma parse_members_unfold fuel acc cs :
  parse_members (S fuel) acc cs
  = match cs return option (list (list N * @value Num) * list N) with
    | q :: cs' =>
        if q =? QUOTE then
          parse_chars cs' ≫= λ '(k, r),
          match skip_ws r return option (list (list N * @value Num) * list N) with
          | d :: r1 =>
              if d =? COLON then
                parse_value fuel (skip_ws r1) ≫= λ '(v, r2),
                match skip_ws r2
                  return option (list (list N * @value Num) * list N) with
                | e :: r3 =>
                    if e =? COMMA
                    then parse_members fuel (obj_define acc k v) (skip_ws r3)
                    else if e =? RBRACE then Some (obj_define acc k v, r3)
                    else None
                | [] => None
                end
              else None
          | [] => None
          end
        else None
    | [] => None
    end.
Proof. by destruct cs. Qed.

Lemma skip_ws_length cs : (length (skip_ws cs) ≤ length cs)%nat.
Proof.
  induction cs as [|c cs IH]; simpl; [done|].
  destruct (is_ws c); simpl; lia.
Qed.

Lemma strip_prefix_length p : ∀ cs r,
  strip_prefix p cs = Some r → (length r + length p = length cs)%nat.
Proof.
  induction p as [|a p IH]; intros [|b cs] r; simpl; try done.
  - intros [= <-]. done.
  - intros [= <-]. simpl. lia.
  - destruct (a =? b); [|done]. intros ?%IH. lia.
Qed.

Lemma span_number_length cs : ∀ l r,
  span_number cs = (l, r) → (length cs = length l + length r)%nat.
Proof.
  induction cs as [|c cs IH]; intros l r; simpl.
  - by intros [= <- <-].
  - destruct (is_number_unit c).
    + destruct (span_number cs) as [l' r'].
      intros [= <- <-]. simpl. by rewrite (IH l' r').
    + by intros [= <- <-].
Qed.

Lemma parse_number_length cs v r :
  parse_number cs = Some (v, r) → (length r < length cs)%nat.
Proof.
  unfold parse_number. destruct (span_number cs) as [l r'] eqn:Hspan.
  apply span_number_length in Hspan.
  destruct (JSONNumber l) eqn:Hl; [|done]. intros [= <- <-].
  destruct l; [done|]. simpl in Hspan. lia.
Qed.

Lemma parse_chars_length cs : ∀ s r,
  parse_chars cs = Some (s, r) → (length r < length cs)%nat.
Proof.
  assert (∀ n cs s r, (length cs ≤ n)%nat → parse_chars cs = Some (s, r) →
            (length r < length cs)%nat) as Hn;
    [|intros s r; by apply (Hn (length cs))].
  clear cs. induction n as [|n IH]; intros [|c cs] s r Hlen;
    simpl in Hlen; try done; try lia.
  cbn [parse_chars].
  destruct (c =? QUOTE); [intros [= <- <-]; simpl; lia|].
  destruct (c =? BACKSLASH).
  - destruct cs as [|e cs]; [done|]. destruct (e =? 117).
    + destruct cs as [|h1 [|h2 [|h3 [|h4 cs]]]]; try done.
      destruct (hex4 h1 h2 h3 h4); [|done]. simpl.
      destruct (parse_chars cs) as [[s' r']|] eqn:Hrec; [|done].
      intros [= <- <-]. apply IH in Hrec; simpl in *; lia.
    + destruct (escape_unit e); [|done]. simpl.
      destruct (parse_chars cs) as [[s' r']|] eqn:Hrec; [|done].
      intros [= <- <-]. apply IH in Hrec; simpl in *; lia.
  - destruct (c <? 32); [done|].
    destruct (parse_chars cs) as [[s' r']|] eqn:Hrec; [|done].
    intros [= <- <-]. apply IH in Hrec; simpl in *; lia.
Qed.

(** Every successful call consumes input. *)
Lemma parse_consumes fuel :
  (∀ cs v r, parse_value fuel cs = Some (v, r) → (length r < length cs)%nat)
  ∧ (∀ cs l r, parse_elements fuel cs = Some (l, r) → (length r < length cs)%nat)
  ∧ (∀ acc cs o r, parse_members fuel acc cs = Some (o, r) →
       (length r < length cs)%nat).
Proof.
  induction fuel as [|fuel (IHv & IHe & IHm)]; [done|]. split_and!.
  - intros cs v r. rewrite parse_value_unfold.
    destruct cs as [|c cs]; [done|].
    destruct (c =? LBRACE).
    { pose proof (skip_ws_length cs).
      destruct (skip_ws cs) as [|d r0]; [done|].
      destruct (d =? RBRACE); [intros [= <- <-]; simpl in *; lia|].
      destruct (parse_members fuel [] (d :: r0)) as [[o r']|] eqn:Hm; [|done].
      intros [= <- <-]. apply IHm in Hm. simpl in *. lia. }
    destruct (c =? LBRACKET).
    { pose proof (skip_ws_length cs).
      destruct (skip_ws cs) as [|d r0]; [done|].
      destruct (d =? RBRACKET); [intros [= <- <-]; simpl in *; lia|].
      destruct (parse_elements fuel (d :: r0)) as [[l r']|] eqn:He; [|done].
      intros [= <- <-]. apply IHe in He. simpl in *. lia. }
    destruct (c =? QUOTE).
    { destruct (parse_chars cs) as [[s r']|] eqn:Hc; [|done].
      intros [= <- <-]. apply parse_chars_length in Hc. simpl. lia. }
    destruct (c =? 116).
    { destruct (strip_prefix _ _) as [r'|] eqn:Hs; [|done].
      intros [= <- <-]. apply strip_prefix_length in Hs. simpl in *. lia. }
    destruct (c =? 102).
    { destruct (strip_prefix _ _) as [r'|] eqn:Hs; [|done].
      intros [= <- <-]. apply strip_prefix_length in Hs. simpl in *. lia. }
    destruct (c =? 110).
    { destruct (strip_prefix _ _) as [r'|] eqn:Hs; [|done].
      intros [= <- <-]. apply strip_prefix_length in Hs. simpl in *. lia. }
    apply parse_number_length.
  - intros cs l r. rewrite parse_elements_unfold.
    destruct (parse_value fuel cs) as [[v r0]|] eqn:Hv; [|done]. simpl.
    apply IHv in Hv. pose proof (skip_ws_length r0).
    destruct (skip_ws r0) as [|d r1]; [done|].
    destruct (d =? COMMA).
    + pose proof (skip_ws_length r1).
      destruct (parse_elements fuel (skip_ws r1)) as [[l' r']|] eqn:He; [|done].
      intros [= <- <-]. apply IHe in He. simpl in *. lia.
    + destruct (d =? RBRACKET); [|done]. intros [= <- <-]. simpl in *. lia.
  - intros acc cs o r. rewrite parse_members_unfold.
    destruct cs as [|q cs]; [done|]. destruct (q =? QUOTE); [|done].
    destruct (parse_chars cs) as [[k r0]|] eqn:Hc; [|done]. simpl.
    apply parse_chars_length in Hc. pose proof (skip_ws_length r0).
    destruct (skip_ws r0) as [|d r1]; [done|].
    destruct (d =? COLON); [|done]. pose proof (skip_ws_length r1).
    destruct (parse_value fuel (skip_ws r1)) as [[v r2]|] eqn:Hv; [|done].
    simpl. apply IHv in Hv. pose proof (skip_ws_length r2).
    destruct (skip_ws r2) as [|e r3]; [done|].
    destruct (e =? COMMA).
    + pose proof (skip_ws_length r3). intros Hm%IHm. simpl in *. lia.
    + destruct (e =? RBRACE); [|done]. intros [= <- <-]. simpl in *. lia.
Qed.

(** With fuel above twice the length of the input, more fuel gives the
    same result. *)
Lemma parse_fuel_enough fuel :
  (∀ cs fuel', (2 * length cs < fuel)%nat → (fuel ≤ fuel')%nat →
     parse_value fuel' cs = parse_value fuel cs)
  ∧ (∀ cs fuel', (2 * length cs + 1 < fuel)%nat → (fuel ≤ fuel')%nat →
     parse_elements fuel' cs = parse_elements fuel cs)
  ∧ (∀ acc cs fuel', (2 * length cs + 1 < fuel)%nat → (fuel ≤ fuel')%nat →
     parse_members fuel' acc cs = parse_members fuel acc cs).
Proof.
  induction fuel as [|fuel (IHv & IHe & IHm)]; [split_and!; intros; lia|].
  destruct (parse_consumes fuel) as (Cv & _ & _).
  split_and!.
  - intros cs [|fuel'] Hlen Hle; [lia|]. rewrite !parse_value_unfold.
    destruct cs as [|c cs]; [done|]. simpl in Hlen.
    pose proof (skip_ws_length cs).
    destruct (c =? LBRACE).
    { destruct (skip_ws cs) as [|d r0]; [done|].
      destruct (d =? RBRACE); [done|].
      rewrite (IHm [] (d :: r0) fuel'); [done| |lia]. simpl in *. lia. }
    destruct (c =? LBRACKET); [|done].
    destruct (skip_ws cs) as [|d r0]; [done|].
    destruct (d =? RBRACKET); [done|].
    rewrite (IHe (d :: r0) fuel'); [done| |lia]. simpl in *. lia.
  - intros cs [|fuel'] Hlen Hle; [lia|]. rewrite !parse_elements_unfold.
    rewrite (IHv cs fuel') by lia.
    destruct (parse_value fuel cs) as [[v r0]|] eqn:Hv; [|done]. simpl.
    apply Cv in Hv. pose proof (skip_ws_length r0).
    destruct (skip_ws r0) as [|d r1]; [done|].
    destruct (d =? COMMA); [|done].
    pose proof (skip_ws_length r1).
    rewrite (IHe (skip_ws r1) fuel'); [done| |lia]. simpl in *. lia.
  - intros acc cs [|fuel'] Hlen Hle; [lia|]. rewrite !parse_members_unfold.
    destruct cs as [|q cs]; [done|]. destruct (q =? QUOTE); [|done].
    destruct (parse_chars cs) as [[k r0]|] eqn:Hc; [|done]. simpl.
    apply parse_chars_length in Hc. pose proof (skip_ws_length r0).
    destruct (skip_ws r0) as [|d r1]; [done|].
    destruct (d =? COLON); [|done]. pose proof (skip_ws_length r1).
    rewrite (IHv (skip_ws r1) fuel'); [| |lia]; [|simpl in *; lia].
    destruct (parse_value fuel (skip_ws r1)) as [[v r2]|] eqn:Hv; [|done].
    simpl. apply Cv in Hv. pose proof (skip_ws_length r2).
    destruct (skip_ws r2) as [|e r3]; [done|].
    destruct (e =? COMMA); [|done]. pose proof (skip_ws_length r3).
    rewrite (IHm _ (skip_ws r3) fuel'); [done| |lia]. simpl in *. lia.
Qed.

(** The fuel [JSON_parse] gives is enough: no amount of fuel gives another
    result. *)
Lemma JSON_parse_fuel text fuel :
  (S (2 * length text) ≤ fuel)%nat →
  parse_value fuel (skip_ws text)
  = parse_value (S (2 * length text)) (skip_ws text).
Proof.
  intros Hle. destruct (parse_fuel_enough (S (2 * length text))) as (Hv & _).
  apply Hv; [|done]. pose proof (skip_ws_length text). lia.
Qed.

(** ** Reading back a serialized value *)

Lemma skip_ws_app w cs : Forall (λ c, is_ws c = true) w → skip_ws (w ++ cs) = skip_ws cs.
Proof. induction 1 as [|c w Hc _ IH]; simpl; [done|]. by rewrite Hc. Qed.

Lemma skip_ws_head c cs : is_ws c = false → skip_ws (c :: cs) = c :: cs.
Proof. simpl. by intros ->. Qed.

Lemma is_ws_ends_number c cs : is_ws c = true → ends_number (c :: cs).
Proof.
  unfold is_ws. simpl.
  intros [[[->%N.eqb_eq| ->%N.eqb_eq]%orb_true_iff| ->%N.eqb_eq]%orb_true_iff
         | ->%N.eqb_eq]%orb_true_iff; done.
Qed.

Lemma parse_value_string fuel cs :
  parse_value (S fuel) (QUOTE :: cs) = '(s, r) ← parse_chars cs; Some (VStr s, r).
Proof. reflexivity. Qed.

(** The text of a primitive value reads back as the value, [null] if it
    is a number that is not finite, and does not start with white space. *)
Lemma parse_value_primitive `{!NumberLaws} gap indent v t fuel tail :
  primitive v = true →
  SerializeJSONProperty gap indent v = Some t →
  ends_number tail →
  parse_value (S fuel) (t ++ tail) = Some (as_written v, tail)
  ∧ skip_ws (t ++ tail) = t ++ tail.
Proof.
  intros Hv Ht Htail. destruct v as [| |[]|n|s|l|o]; try done;
    simpl in Ht; injection Ht as <-.
  - by vm_compute.
  - by vm_compute.
  - by vm_compute.
  - cbn [as_written]. destruct (isFinite n) eqn:Hf; [|by vm_compute].
    destruct (JSONNumber_head _ (NumberToString_literal n Hf))
      as (c & t' & Heq & Hc).
    rewrite Heq. cbn [app]. rewrite parse_value_number by done.
    split.
    + change (c :: t' ++ tail) with ((c :: t') ++ tail). rewrite <-Heq.
      rewrite parse_number_literal by (done || by apply NumberToString_literal).
      by rewrite StringToNumber_NumberToString.
    + apply skip_ws_head.
      destruct Hc as [->|[?%N.leb_le ?%N.leb_le]%andb_true_iff]; [done|].
      unfold is_ws, SPACE, LF.
      repeat match goal with
      | |- context [c =? ?b] => destruct (N.eqb_spec c b); [lia|]
      end. done.
  - unfold QuoteJSONString. cbn [app]. rewrite parse_value_string.
    rewrite <-app_assoc. cbn [app]. by rewrite parse_chars_quote_units.
Qed.

Lemma parse_members_eq fuel acc cs :
  parse_members (S fuel) acc (QUOTE :: cs)
  = parse_chars cs ≫= λ '(k, r),
    match skip_ws r return option (list (list N * @value Num) * list N) with
    | d :: r1 =>
        if d =? COLON then
          parse_value fuel (skip_ws r1) ≫= λ '(v, r2),
          match skip_ws r2 return option (list (list N * @value Num) * list N) with
          | e :: r3 =>
              if e =? COMMA
              then parse_members fuel (obj_define acc k v) (skip_ws r3)
              else if e =? RBRACE then Some (obj_define acc k v, r3)
              else None
          | [] => None
          end
        else None
    | [] => None
    end.
Proof. reflexivity. Qed.

Lemma member_colon_ws gap :
  Forall (λ c, is_ws c = true) gap →
  ∃ w, member_colon gap = COLON :: w ∧ Forall (λ c, is_ws c = true) w.
Proof.
  intros Hgap. destruct gap; simpl.
  - by exists [].
  - exists [SPACE]. split; [done|]. by repeat constructor.
Qed.

Lemma member_text_head gap indent e :
  ∃ cs, member_text gap indent e = QUOTE :: cs.
Proof. unfold member_text, QuoteJSONString. simpl. eauto. Qed.

Lemma join_cons sep (p q : list N) ps :
  join sep (p :: q :: ps) = p ++ sep ++ join sep (q :: ps).
Proof. reflexivity. Qed.

Lemma foldl_obj_define_fresh o : ∀ acc,
  NoDup (keys (acc ++ o)) →
  foldl (λ a e, obj_define a e.1 e.2) acc o = acc ++ o.
Proof.
  induction o as [|[k v] o IH]; intros acc Hnd; simpl.
  - by rewrite app_nil_r.
  - rewrite obj_define_fresh.
    + rewrite IH; rewrite <-app_assoc; done.
    + rewrite fmap_app in Hnd. apply NoDup_app in Hnd as (_ & Hdisj & _).
      intros Hin. apply (Hdisj k Hin). by left.
Qed.

Lemma parse_value_object fuel cs :
  parse_value (S fuel) (LBRACE :: cs)
  = match skip_ws cs return option (@value Num * list N) with
    | d :: r =>
        if d =? RBRACE then Some (VObj [], r)
        else parse_members fuel [] (d :: r) ≫= λ '(o, r'), Some (VObj o, r')
    | [] => None
    end.
Proof. reflexivity. Qed.

Lemma NoDup_keys_filter_loop entries : ∀ claimsToStore,
  NoDup (keys claimsToStore) → NoDup (keys (filter_loop entries claimsToStore)).
Proof.
  induction entries as [|[k v] entries IH]; intros acc Hnd; simpl; [done|].
  apply IH. destruct (negb (ignored k) && negb (is_nullish v)); [|done].
  unfold obj_assign. case_bool_decide; [done|].
  by apply NoDup_keys_obj_define.
Qed.

Lemma Forall_obj_define (P : list N * value → Prop) o k v :
  P (k, v) → Forall P o → Forall P (obj_define o k v).
Proof.
  intros Hv. induction 1 as [|[k' v'] o Hx Ho IH]; simpl.
  - by repeat constructor.
  - destruct (bool_decide (k' = k)); by constructor.
Qed.

Lemma Forall_filter_loop (P : list N * value → Prop) entries :
  ∀ claimsToStore,
  Forall P entries → Forall P claimsToStore →
  Forall P (filter_loop entries claimsToStore).
Proof.
  induction entries as [|[k v] entries IH]; intros acc He Hacc; simpl; [done|].
  apply Forall_cons in He as [Hv He]. apply IH; [done|].
  destruct (negb (ignored k) && negb (is_nullish v)); [|done].
  unfold obj_assign. case_bool_decide; [done|]. by apply Forall_obj_define.
Qed.

(** ** Reading back nested values *)

(** Induction on a value, with the hypothesis for every element of an array
    and every member of an object. *)
Lemma value_ind_nested (P : value → Prop) :
  P VUndefined → P VNull → (∀ b, P (VBool b)) → (∀ n, P (VNum n)) →
  (∀ s, P (VStr s)) →
  (∀ l, Forall P l → P (VArr l)) →
  (∀ o, Forall (λ e, P e.2) o → P (VObj o)) →
  ∀ v, P v.
Proof.
  intros Hu Hn Hb Hnum Hs Harr Hobj. fix IH 1.
  intros [| |b|n|s|l|o];
    [apply Hu|apply Hn|apply Hb|apply Hnum|apply Hs| |].
  - apply Harr. induction l as [|x l IHl]; constructor; [apply IH|apply IHl].
  - apply Hobj. induction o as [|[k x] o IHo]; constructor;
      [apply IH|apply IHo].
Qed.

(** More fuel keeps a result. *)
Lemma parse_mono fuel :
  (∀ cs res fuel', parse_value fuel cs = Some res → (fuel ≤ fuel')%nat →
     parse_value fuel' cs = Some res)
  ∧ (∀ cs res fuel', parse_elements fuel cs = Some res → (fuel ≤ fuel')%nat →
     parse_elements fuel' cs = Some res)
  ∧ (∀ acc cs res fuel', parse_members fuel acc cs = Some res →
     (fuel ≤ fuel')%nat → parse_members fuel' acc cs = Some res).
Proof.
  induction fuel as [|fuel (IHv & IHe & IHm)]; [done|]. split_and!.
  - intros cs res [|fuel'] Hres Hle; [lia|]. revert Hres.
    rewrite !parse_value_unfold. destruct cs as [|c cs]; [done|].
    destruct (c =? LBRACE).
    { destruct (skip_ws cs) as [|d r0]; [done|].
      destruct (d =? RBRACE); [done|].
      destruct (parse_members fuel [] (d :: r0)) as [[o r']|] eqn:Hm; [|done].
      by rewrite (IHm _ _ _ fuel' Hm) by lia. }
    destruct (c =? LBRACKET); [|done].
    destruct (skip_ws cs) as [|d r0]; [done|].
    destruct (d =? RBRACKET); [done|].
    destruct (parse_elements fuel (d :: r0)) as [[l r']|] eqn:He; [|done].
    by rewrite (IHe _ _ fuel' He) by lia.
  - intros cs res [|fuel'] Hres Hle; [lia|]. revert Hres.
    rewrite !parse_elements_unfold.
    destruct (parse_value fuel cs) as [[v r0]|] eqn:Hv; [|done].
    rewrite (IHv _ _ fuel' Hv) by lia. simpl.
    destruct (skip_ws r0) as [|d r1]; [done|].
    destruct (d =? COMMA); [|done].
    destruct (parse_elements fuel (skip_ws r1)) as [[l r']|] eqn:He; [|done].
    by rewrite (IHe _ _ fuel' He) by lia.
  - intros acc cs res [|fuel'] Hres Hle; [lia|]. revert Hres.
    rewrite !parse_members_unfold.
    destruct cs as [|q cs]; [done|]. destruct (q =? QUOTE); [|done].
    destruct (parse_chars cs) as [[k r0]|]; [|done]. simpl.
    destruct (skip_ws r0) as [|d r1]; [done|].
    destruct (d =? COLON); [|done].
    destruct (parse_value fuel (skip_ws r1)) as [[v r2]|] eqn:Hv; [|done].
    rewrite (IHv _ _ fuel' Hv) by lia. simpl.
    destruct (skip_ws r2) as [|e r3]; [done|].
    destruct (e =? COMMA); [|done].
    intros Hm. by rewrite (IHm _ _ _ fuel' Hm) by lia.
Qed.

Lemma parse_value_mono fuel fuel' cs res :
  parse_value fuel cs = Some res → (fuel ≤ fuel')%nat →
  parse_value fuel' cs = Some res.
Proof. destruct (parse_mono fuel) as (Hv & _). apply Hv. Qed.

Lemma parse_elements_mono fuel fuel' cs res :
  parse_elements fuel cs = Some res → (fuel ≤ fuel')%nat →
  parse_elements fuel' cs = Some res.
Proof. destruct (parse_mono fuel) as (_ & He & _). apply He. Qed.

Lemma parse_members_mono fuel fuel' acc cs res :
  parse_members fuel acc cs = Some res → (fuel ≤ fuel')%nat →
  parse_members fuel' acc cs = Some res.
Proof. destruct (parse_mono fuel) as (_ & _ & Hm). apply Hm. Qed.

Lemma starts_value_skip_ws text tail :
  starts_value text → skip_ws (text ++ tail) = text ++ tail.
Proof. destruct text as [|c text]; [done|]. intros [Hc _]. by apply skip_ws_head. Qed.

Lemma starts_value_app text tail : starts_value text → starts_value (text ++ tail).
Proof. by destruct text. Qed.

Lemma ends_number_ws_closing w c tail :
  Forall (λ c, is_ws c = true) w → is_number_unit c = false →
  ends_number (w ++ c :: tail).
Proof.
  intros Hw Hc. destruct w as [|a w]; [done|].
  apply Forall_cons in Hw as [Ha _]. by apply is_ws_ends_number.
Qed.

Lemma wrap_shape gap opening closing indent (parts : list (list N)) :
  parts ≠ [] →
  Forall (λ c, is_ws c = true) gap → Forall (λ c, is_ws c = true) indent →
  ∃ w0 w1 w2,
    Forall (λ c, is_ws c = true) w0 ∧ Forall (λ c, is_ws c = true) w1
    ∧ Forall (λ c, is_ws c = true) w2
    ∧ wrap gap opening closing indent (indent ++ gap) parts
      = opening :: w0 ++ join (COMMA :: w1) parts ++ w2 ++ [closing].
Proof.
  intros Hne Hgap Hind. unfold wrap. destruct parts as [|part parts]; [done|].
  destruct gap as [|g gap].
  - exists [], [], []. by split_and!.
  - exists (LF :: indent ++ g :: gap), (LF :: indent ++ g :: gap), (LF :: indent).
    split_and!.
    + constructor; [done|]. by apply Forall_app.
    + constructor; [done|]. by apply Forall_app.
    + by constructor.
    + done.
Qed.

Lemma parse_value_array fuel cs :
  parse_value (S fuel) (LBRACKET :: cs)
  = match skip_ws cs return option (@value Num * list N) with
    | d :: r =>
        if d =? RBRACKET then Some (VArr [], r)
        else parse_elements fuel (d :: r) ≫= λ '(l, r'), Some (VArr l, r')
    | [] => None
    end.
Proof. reflexivity. Qed.

(** The elements of an array, up to the closing bracket. *)
Lemma parse_elements_json gap indent w1 w2 l : ∀ tail,
  Forall (reads_back gap) l → forallb is_data l = true →
  Forall (λ c, is_ws c = true) indent →
  Forall (λ c, is_ws c = true) w1 →
  Forall (λ c, is_ws c = true) w2 →
  l ≠ [] →
  starts_value
    (join (COMMA :: w1)
       (serialize_elements (SerializeJSONProperty gap indent) l))
  ∧ ∃ fuel,
      parse_elements fuel
        (join (COMMA :: w1)
           (serialize_elements (SerializeJSONProperty gap indent) l)
         ++ w2 ++ RBRACKET :: tail)
      = Some (as_written <$> l, tail).
Proof.
  induction l as [|x l IH]; intros tail Hall Hjson Hind Hw1 Hw2 Hne; [done|].
  apply Forall_cons in Hall as [Hx Hall].
  simpl in Hjson. apply andb_true_iff in Hjson as [Hjx Hjson].
  destruct l as [|y l].
  - destruct (Hx Hjx indent (w2 ++ RBRACKET :: tail) Hind)
      as (t & Ht & Hstart & fuel & Hparse);
      [by apply ends_number_ws_closing|].
    unfold serialize_elements. simpl. rewrite Ht. simpl. split; [done|].
    exists (S fuel). rewrite parse_elements_unfold, Hparse. simpl.
    rewrite skip_ws_app by done. by rewrite skip_ws_head by done.
  - destruct (IH tail) as (Hstart' & fr & Hrest); try done.
    set (rest := join (COMMA :: w1)
      (serialize_elements (SerializeJSONProperty gap indent) (y :: l))) in *.
    destruct (Hx Hjx indent
                (COMMA :: w1 ++ rest ++ w2 ++ RBRACKET :: tail) Hind)
      as (t & Ht & Hstart & fx & Hparse); [done|].
    assert (join (COMMA :: w1)
              (serialize_elements (SerializeJSONProperty gap indent)
                 (x :: y :: l))
            = t ++ COMMA :: w1 ++ rest) as ->.
    { unfold serialize_elements. rewrite !fmap_cons, Ht. simpl. done. }
    split; [by apply starts_value_app|].
    exists (S (fx `max` fr)). rewrite parse_elements_unfold.
    rewrite <-!app_assoc. cbn [app]. rewrite <-!app_assoc.
    rewrite (parse_value_mono _ _ _ _ Hparse) by lia. simpl.
    replace (COMMA =? COMMA) with true by done.
    rewrite skip_ws_app by done.
    rewrite (starts_value_skip_ws rest) by done.
    by rewrite (parse_elements_mono _ _ _ _ Hrest) by lia.
Qed.

Lemma serialize_members_json gap indent o :
  Forall (λ e, reads_back gap e.2) o →
  forallb (λ '(_, x), is_data x) o = true →
  Forall (λ c, is_ws c = true) indent →
  serialize_members gap (SerializeJSONProperty gap indent) o
  = member_text gap indent <$> o.
Proof.
  induction o as [|[k v] o IH]; intros Hall Hjson Hind; [done|].
  apply Forall_cons in Hall as [Hv Hall].
  simpl in Hjson. apply andb_true_iff in Hjson as [Hjv Hjson].
  destruct (Hv Hjv indent [] Hind I) as (t & Ht & _).
  unfold serialize_members in *. rewrite fmap_cons. simpl in *.
  rewrite Ht. simpl. f_equal.
  - unfold member_text. simpl. by rewrite Ht.
  - by apply IH.
Qed.

(** One member whose value reads back as [v'], then what follows it. *)
Lemma parse_members_member_json gap indent fuel acc k v v' t tail :
  Forall (λ c, is_ws c = true) gap →
  SerializeJSONProperty gap indent v = Some t →
  starts_value t →
  parse_value fuel (t ++ tail) = Some (v', tail) →
  parse_members (S fuel) acc (member_text gap indent (k, v) ++ tail)
  = match skip_ws tail with
    | e :: r3 =>
        if e =? COMMA
        then parse_members fuel (obj_define acc k v') (skip_ws r3)
        else if e =? RBRACE then Some (obj_define acc k v', r3)
        else None
    | [] => None
    end.
Proof.
  intros Hgap Ht Hstart Hparse.
  destruct (member_colon_ws gap Hgap) as (w & Hcolon & Hw).
  unfold member_text, QuoteJSONString. simpl. rewrite Ht, Hcolon. simpl.
  rewrite <-!app_assoc. cbn [app].
  rewrite parse_members_eq, parse_chars_quote_units. simpl.
  by rewrite <-app_assoc, skip_ws_app, starts_value_skip_ws, Hparse.
Qed.

(** The members of an object, up to the closing brace. *)
Lemma parse_members_json gap indent w1 w2 o : ∀ acc tail,
  Forall (λ e, reads_back gap e.2) o →
  forallb (λ '(_, x), is_data x) o = true →
  Forall (λ c, is_ws c = true) gap →
  Forall (λ c, is_ws c = true) indent →
  Forall (λ c, is_ws c = true) w1 →
  Forall (λ c, is_ws c = true) w2 →
  o ≠ [] →
  ∃ fuel,
    parse_members fuel acc
      (join (COMMA :: w1) (member_text gap indent <$> o)
       ++ w2 ++ RBRACE :: tail)
    = Some (foldl (λ a e, obj_define a e.1 (as_written e.2)) acc o, tail).
Proof.
  induction o as [|[k v] o IH];
    intros acc tail Hall Hjson Hgap Hind Hw1 Hw2 Hne; [done|].
  apply Forall_cons in Hall as [Hv Hall]. simpl in Hv.
  simpl in Hjson. apply andb_true_iff in Hjson as [Hjv Hjson].
  destruct o as [|e o].
  - destruct (Hv Hjv indent (w2 ++ RBRACE :: tail) Hind)
      as (t & Ht & Hstart & fuel & Hparse);
      [by apply ends_number_ws_closing|].
    exists (S fuel).
    change (join _ (member_text gap indent <$> [(k, v)]))
      with (member_text gap indent (k, v)).
    rewrite (parse_members_member_json _ _ _ _ _ _ (as_written v) t) by done.
    rewrite skip_ws_app by done. simpl. done.
  - destruct (IH (obj_define acc k (as_written v)) tail) as (fr & Hrest);
      try done.
    set (rest := join (COMMA :: w1) (member_text gap indent <$> e :: o)) in *.
    destruct (Hv Hjv indent
                (COMMA :: w1 ++ rest ++ w2 ++ RBRACE :: tail) Hind)
      as (t & Ht & Hstart & fx & Hparse); [done|].
    exists (S (fx `max` fr)).
    rewrite fmap_cons, fmap_cons, join_cons, <-fmap_cons. fold rest.
    rewrite <-!app_assoc. cbn [app].
    rewrite (parse_members_member_json _ _ _ _ _ _ (as_written v) t);
      [|done..|].
    + rewrite skip_ws_head by done.
      replace (COMMA =? COMMA) with true by done.
      rewrite skip_ws_app by done.
      assert (skip_ws (rest ++ w2 ++ RBRACE :: tail)
              = rest ++ w2 ++ RBRACE :: tail) as ->.
      { subst rest. destruct (member_text_head gap indent e) as [cs Hcs].
        rewrite fmap_cons.
        destruct o as [|e' o];
          [cbn [fmap list_fmap join]|rewrite fmap_cons, join_cons];
          by rewrite Hcs. }
      by apply (parse_members_mono _ _ _ _ _ Hrest); lia.
    + by apply (parse_value_mono _ _ _ _ Hparse); lia.
Qed.

(** Defining the members of an object one after the other gives them in
    their order, when their names are distinct. *)
Lemma foldl_obj_define_written o :
  NoDup (keys o) →
  foldl (λ a e, obj_define a e.1 (as_written e.2)) [] o
  = (λ '(k, x), (k, as_written x)) <$> o.
Proof.
  intros Hnd.
  assert (∀ acc : list (list N * value),
    foldl (λ a e, obj_define a e.1 (as_written e.2)) acc o
    = foldl (λ a e, obj_define a e.1 e.2) acc
        ((λ '(k, x), (k, as_written x)) <$> o)) as ->.
  { clear Hnd. induction o as [|[k x] o IH]; intros acc; simpl; [done|].
    apply IH. }
  apply (foldl_obj_define_fresh _ []). simpl.
  rewrite <-list_fmap_compose.
  erewrite list_fmap_ext; [exact Hnd|]. by intros i [k x].
Qed.

(** Every value that holds data is read back from its text. *)
Lemma reads_back_all `{!NumberLaws} gap v :
  Forall (λ c, is_ws c = true) gap → reads_back gap v.
Proof.
  intros Hgap. induction v as [| |b|n|s|l IH|o IH] using value_ind_nested;
    intros Hjson indent tail Hind Htail; try done.
  - exists (js "null"). split_and!; [done..|].
    exists 1%nat. eapply (parse_value_primitive gap indent VNull); done.
  - destruct (parse_value_primitive gap indent (VBool b)
                (if b then js "true" else js "false") 0 tail)
      as [Hp _]; [done|by destruct b|done|].
    exists (if b then js "true" else js "false").
    split_and!; [by destruct b|by destruct b|by exists 1%nat].
  - destruct (parse_value_primitive gap indent (VNum n)
                (if isFinite n then NumberToString n else js "null") 0 tail)
      as [Hp Hskip]; [done..|].
    exists (if isFinite n then NumberToString n else js "null").
    split_and!; [done| |by exists 1%nat].
    destruct (isFinite n) eqn:Hf; [|done].
    destruct (JSONNumber_head _ (NumberToString_literal n Hf))
      as (c & t' & Heq & Hc).
    rewrite Heq. simpl.
    destruct Hc as [->|[?%N.leb_le ?%N.leb_le]%andb_true_iff]; [done|].
    unfold is_ws, SPACE, LF, RBRACKET.
    split; [|lia].
    repeat match goal with
    | |- context [c =? ?b] => destruct (N.eqb_spec c b); [lia|]
    end. done.
  - destruct (parse_value_primitive gap indent (VStr s) (QuoteJSONString s) 0
                tail) as [Hp _]; [done..|].
    exists (QuoteJSONString s). split_and!; [done..|by exists 1%nat].
  - cbn [SerializeJSONProperty as_written]. eexists. split; [done|].
    destruct l as [|x l].
    { split; [done|]. by exists 1%nat. }
    set (parts := serialize_elements (SerializeJSONProperty gap (indent ++ gap))
                    (x :: l)).
    destruct (wrap_shape gap LBRACKET RBRACKET indent parts)
      as (w0 & w1 & w2 & Hw0 & Hw1 & Hw2 & ->); [done..|].
    split; [done|].
    destruct (parse_elements_json gap (indent ++ gap) w1 w2 (x :: l) tail)
      as (Hstart & fuel & Hparse); try done; [by apply Forall_app|].
    fold parts in Hstart, Hparse.
    exists (S fuel). cbn [app]. rewrite parse_value_array.
    rewrite <-!app_assoc. cbn [app]. rewrite skip_ws_app by done.
    rewrite (starts_value_skip_ws (join (COMMA :: w1) parts)) by done.
    destruct parts as [|part parts'] eqn:Hparts; [done|].
    destruct (join (COMMA :: w1) (part :: parts')) as [|d r0] eqn:Hjoin;
      [done|].
    destruct Hstart as [_ Hd]. cbn [app] in *.
    rewrite (proj2 (N.eqb_neq _ _) Hd). by rewrite Hparse.
  - cbn [SerializeJSONProperty as_written]. eexists. split; [done|].
    cbn [is_data] in Hjson. apply andb_true_iff in Hjson as [Hnd Hjson].
    apply bool_decide_eq_true in Hnd.
    rewrite serialize_members_json; [|done..|by apply Forall_app].
    destruct o as [|e o].
    { split; [done|]. by exists 1%nat. }
    destruct (wrap_shape gap LBRACE RBRACE indent
                (member_text gap (indent ++ gap) <$> e :: o))
      as (w0 & w1 & w2 & Hw0 & Hw1 & Hw2 & ->); [done..|].
    split; [done|].
    destruct (parse_members_json gap (indent ++ gap) w1 w2 (e :: o) [] tail)
      as (fuel & Hparse); try done; [by apply Forall_app|].
    exists (S fuel). cbn [app]. rewrite parse_value_object.
    rewrite <-!app_assoc. cbn [app]. rewrite skip_ws_app by done.
    assert (∃ cs, join (COMMA :: w1)
                    (member_text gap (indent ++ gap) <$> e :: o)
                  = QUOTE :: cs) as [cs Hcs].
    { destruct (member_text_head gap (indent ++ gap) e) as [cs Hcs].
      rewrite fmap_cons.
      destruct o as [|e' o];
        [cbn [fmap list_fmap join]|rewrite fmap_cons, join_cons];
        rewrite Hcs; simpl; eauto. }
    rewrite Hcs in *. cbn [app] in *. rewrite skip_ws_head by done.
    replace (QUOTE =? RBRACE) with false by done.
    rewrite Hparse. cbn [mbind option_bind].
    by rewrite (foldl_obj_define_written (e :: o)).
Qed.

(** A value that holds data reads back from its text, with any indentation,
    as itself with [null] for the numbers that are not finite. *)
Lemma parse_stringify_written `{!NumberLaws} v space :
  is_data v = true →
  ∃ text,
    JSON_stringify v space = Some text
    ∧ JSON_parse text = Some (as_written v).
Proof.
  intros Hjson. unfold JSON_stringify.
  set (gap := replicate (space `min` 10) SPACE).
  assert (Forall (λ c, is_ws c = true) gap) as Hgap.
  { subst gap. induction (space `min` 10)%nat; by constructor. }
  destruct (reads_back_all gap v Hgap Hjson [] []) as
    (text & Htext & Hstart & fuel & Hparse); [done..|].
  exists text. split; [done|]. rewrite app_nil_r in Hparse.
  unfold JSON_parse.
  rewrite <-(JSON_parse_fuel text (fuel `max` S (2 * length text))) by lia.
  rewrite <-(app_nil_r text) at 2. rewrite starts_value_skip_ws by done.
  rewrite app_nil_r.
  by rewrite (parse_value_mono _ _ _ _ Hparse) by lia.
Qed.

(** A JSON value is written as it is. *)
Lemma as_written_is_json v : is_json v = true → as_written v = v.
Proof.
  induction v as [| |b|n|s|l IH|o IH] using value_ind_nested; try done.
  - simpl. by intros ->.
  - simpl. intros Hl. f_equal.
    induction IH as [|x l Hx _ IHl]; [done|].
    simpl in Hl. apply andb_true_iff in Hl as [Hjx Hl].
    by rewrite fmap_cons, Hx, IHl.
  - simpl. intros [_ Ho]%andb_true_iff. f_equal.
    induction IH as [|[k x] o Hx _ IHo]; [done|].
    simpl in Ho. apply andb_true_iff in Ho as [Hjx Ho].
    simpl in Hx. by rewrite fmap_cons, Hx, IHo.
Qed.

(** Conversely, a value that holds data and is written as it is has only
    finite numbers. *)
Lemma is_json_as_written v :
  is_data v = true → as_written v = v → is_json v = true.
Proof.
  induction v as [| |b|n|s|l IH|o IH] using value_ind_nested; try done.
  - simpl. by destruct (isFinite n).
  - simpl. intros Hl [= Heq].
    induction IH as [|x l Hx _ IHl]; [done|].
    simpl in Hl. apply andb_true_iff in Hl as [Hdx Hl].
    rewrite fmap_cons in Heq. injection Heq as Hx' Heq.
    simpl. by rewrite Hx, IHl.
  - simpl. intros [Hnd Ho]%andb_true_iff [= Heq].
    rewrite Hnd. simpl. clear Hnd.
    induction IH as [|[k x] o Hx _ IHo]; [done|].
    simpl in Ho. apply andb_true_iff in Ho as [Hdx Ho].
    rewrite fmap_cons in Heq. injection Heq as Hx' Heq.
    simpl in *. by rewrite Hx, IHo.
Qed.

Lemma is_json_is_data v : is_json v = true → is_data v = true.
Proof.
  induction v as [| |b|n|s|l IH|o IH] using value_ind_nested; try done.
  - simpl. intros Hl.
    induction IH as [|x l Hx _ IHl]; [done|].
    simpl in *. apply andb_true_iff in Hl as [Hjx Hl].
    by rewrite Hx, IHl.
  - simpl. intros [Hnd Ho]%andb_true_iff. rewrite Hnd. simpl. clear Hnd.
    induction IH as [|[k x] o Hx _ IHo]; [done|].
    simpl in *. apply andb_true_iff in Ho as [Hjx Ho].
    by rewrite Hx, IHo.
Qed.

(** A JSON value reads back from its text, with any indentation. *)
Lemma parse_stringify_any `{!NumberLaws} v space :
  is_json v = true →
  ∃ text, JSON_stringify v space = Some text ∧ JSON_parse text = Some v.
Proof.
  intros Hjson.
  destruct (parse_stringify_written v space) as (text & Htext & Hparse);
    [by apply is_json_is_data|].
  exists text. by rewrite <-(as_written_is_json v Hjson) at 2.
Qed.
(** ** The text of a snapshot *)

Lemma is_data_object o :
  NoDup (keys o) → Forall (λ e, is_data e.2 = true) o →
  is_data (VObj o) = true.
Proof.
  intros Hnd Hall. cbn [is_data]. apply andb_true_iff. split.
  - by apply bool_decide_eq_true.
  - apply forallb_forall. intros [k v] Hin.
    apply list_elem_of_In in Hin.
    by apply (proj1 (Forall_forall _ _) Hall (k, v)).
Qed.

Lemma is_json_object o :
  NoDup (keys o) → Forall (λ e, is_json e.2 = true) o →
  is_json (VObj o) = true.
Proof.
  intros Hnd Hall. cbn [is_json]. apply andb_true_iff. split.
  - by apply bool_decide_eq_true.
  - apply forallb_forall. intros [k v] Hin.
    apply list_elem_of_In in Hin.
    by apply (proj1 (Forall_forall _ _) Hall (k, v)).
Qed.

Lemma is_json_members o :
  is_json (VObj o) = true → Forall (λ e, is_json e.2 = true) o.
Proof.
  cbn [is_json]. intros [_ Ho]%andb_true_iff.
  apply Forall_forall. intros [k v] Hin%list_elem_of_In.
  by apply (proj1 (forallb_forall _ _) Ho (k, v)).
Qed.

Lemma primitive_is_data v : primitive v = true → is_data v = true.
Proof. by destruct v. Qed.

(** The text of an object that holds data reads back as the object, with
    [null] for the numbers that are not finite. *)
Lemma parse_stringify_object_written `{!NumberLaws} o space :
  NoDup (keys o) → Forall (λ e, is_data e.2 = true) o →
  JSON_parse (stringify_object o space) = Some (as_written (VObj o)).
Proof.
  intros Hnd Hall.
  destruct (parse_stringify_written (VObj o) space) as (text & Htext & Hparse);
    [by apply is_data_object|].
  unfold stringify_object. by rewrite Htext.
Qed.

Lemma parse_stringify_object `{!NumberLaws} o space :
  NoDup (keys o) → Forall (λ e, is_json e.2 = true) o →
  JSON_parse (stringify_object o space) = Some (VObj o).
Proof.
  intros Hnd Hall.
  destruct (parse_stringify_any (VObj o) space) as (text & Htext & Hparse);
    [by apply is_json_object|].
  unfold stringify_object. by rewrite Htext.
Qed.

(** C6, as the code has it.  A snapshot whose values are strings, numbers,
    booleans or [null] (its property names distinct, as those of an object
    are) reads back, from the text [JSON.stringify] writes for it with the
    indentation the capture handler asks for, as the same snapshot when its
    numbers are finite, and only then: a number that is not finite is
    written as [null]. *)
Theorem parse_stringify_snapshot `{!NumberLaws} o :
  NoDup (keys o) →
  Forall (λ e, primitive e.2 = true) o →
  (Forall (λ e, is_json e.2 = true) o →
   JSON_parse (stringify_object o 2) = Some (VObj o))
  ∧ (JSON_parse (stringify_object o 2) = Some (VObj o) →
     Forall (λ e, is_json e.2 = true) o).
Proof.
  intros Hnd Hprim.
  assert (Forall (λ e, is_data e.2 = true) o) as Hdata.
  { eapply Forall_impl; [exact Hprim|]. intros e. apply primitive_is_data. }
  split.
  - intros Hjson. by apply parse_stringify_object.
  - rewrite parse_stringify_object_written by done. intros [= Heq].
    apply is_json_members, is_json_as_written; [by apply is_data_object|].
    simpl. by rewrite Heq.
Qed.

Lemma obj_get_written o k :
  obj_get ((λ '(k, x), (k, as_written x)) <$> o) k = as_written <$> obj_get o k.
Proof.
  induction o as [|[k' x] o IH]; [done|]. rewrite fmap_cons. simpl.
  by destruct (bool_decide (k' = k)).
Qed.

Lemma keys_written o : keys ((λ '(k, x), (k, as_written x)) <$> o) = keys o.
Proof.
  rewrite <-list_fmap_compose. apply list_fmap_ext. by intros i [k x].
Qed.

Lemma snapshot_NoDup p idTokenClaims time :
  NoDup (keys (snapshot p idTokenClaims time)).
Proof.
  destruct metadata_not_proto as [Hp Hl]. unfold snapshot.
  rewrite !obj_assign_define by done.
  do 2 apply NoDup_keys_obj_define.
  apply NoDup_keys_filter_loop, NoDup_nil_2.
Qed.

Lemma snapshot_provider p idTokenClaims time :
  obj_get (snapshot p idTokenClaims time) (js "_provider")
  = Some (VStr (provider_name p)).
Proof.
  destruct metadata_not_proto as [Hp Hl]. unfold snapshot.
  rewrite !obj_assign_define by done.
  rewrite obj_get_define_ne
    by (intros Heq; vm_compute in Heq; discriminate Heq).
  apply obj_get_define_eq.
Qed.

(** The values of a snapshot are those of the raw claims and two strings. *)
Lemma snapshot_Forall (P : list N * value → Prop) p idTokenClaims time :
  (∀ k s, P (k, VStr s)) →
  Forall P idTokenClaims →
  Forall P (snapshot p idTokenClaims time).
Proof.
  intros Hstr Hall. destruct metadata_not_proto as [Hp Hl].
  unfold snapshot. rewrite !obj_assign_define by done.
  do 2 (apply Forall_obj_define; [apply Hstr|]).
  by apply Forall_filter_loop.
Qed.

(** The text the capture handler serializes reads back as the snapshot,
    when the claims are JSON values. *)
Lemma parse_stringify_captured_json `{!NumberLaws} p idTokenClaims time :
  Forall (λ e, is_json e.2 = true) idTokenClaims →
  JSON_parse (stringify_object (snapshot p idTokenClaims time) 2)
  = Some (VObj (snapshot p idTokenClaims time)).
Proof.
  intros Hjson. apply parse_stringify_object; [apply snapshot_NoDup|].
  by apply snapshot_Forall.
Qed.

(** C5, as the code has it.  Every snapshot the handler writes has the two
    metadata fields, in the object and in the text that is stored.  Another
    name that starts with an underscore is in the snapshot exactly when the
    raw claims have a claim of that name that the filter keeps: the filter
    looks at the exclusion set, at [null] and [undefined], and the
    assignment skips [__proto__]; nothing looks at the underscore.  So the
    invariant holds when the raw names that start with an underscore are
    [_provider], [_last_updated] or [__proto__], or carry no value. *)
Theorem snapshot_reserved_names `{!NumberLaws} env event h p idTokenClaims r :
  auth_provider event = Some p →
  claims p = Some idTokenClaims →
  r ∈ requests (captureIdpClaimsWorkflow env event h).2 →
  r ∉ requests h →
  req_method r = PATCH →
  ∃ userId written,
    r = patch_request userId (stringify_object written 2)
    ∧ written = snapshot p idTokenClaims (now env)
    ∧ obj_get written (js "_provider") = Some (VStr (provider_name p))
    ∧ obj_get written (js "_last_updated") = Some (VStr (now env))
    ∧ (∀ k, startsWith k [UNDERSCORE] = true →
         (k ∈ keys written
          ↔ k = js "_provider" ∨ k = js "_last_updated"
            ∨ ∃ v, (k, v) ∈ idTokenClaims ∧ kept k v = true))
    ∧ ((∀ k v, (k, v) ∈ idTokenClaims → startsWith k [UNDERSCORE] = true →
          k = js "_provider" ∨ k = js "_last_updated" ∨ k = PROTO
          ∨ is_nullish v = true) →
       ∀ k, k ∈ keys written → startsWith k [UNDERSCORE] = true →
            k = js "_provider" ∨ k = js "_last_updated")
    ∧ (Forall (λ e, is_data e.2 = true) idTokenClaims →
       ∃ stored,
         JSON_parse (stringify_object written 2) = Some (VObj stored)
         ∧ keys stored = keys written
         ∧ obj_get stored (js "_provider") = Some (VStr (provider_name p))
         ∧ obj_get stored (js "_last_updated") = Some (VStr (now env))).
Proof.
  intros Hp Hc Hin Hnew Hm.
  destruct (capture_only_writes_snapshot _ _ _ _ _ _ Hp Hc Hin Hnew Hm)
    as [userId ->].
  exists userId, (snapshot p idTokenClaims (now env)).
  destruct metadata_not_proto as [Hnp Hnl].
  pose proof (snapshot_provider p idTokenClaims (now env)) as Hprov.
  assert (obj_get (snapshot p idTokenClaims (now env)) (js "_last_updated")
          = Some (VStr (now env))) as Hupd.
  { unfold snapshot. rewrite !obj_assign_define by done.
    apply obj_get_define_eq. }
  split_and!; [done..| | |].
  - intros k _. apply elem_of_keys_snapshot_kept.
  - intros Hraw k [->|[->|(v & Hv & Hk)]]%elem_of_keys_snapshot_kept Hs;
      [by left|by right|].
    unfold kept in Hk.
    apply andb_true_iff in Hk as [[_ Hn%negb_true_iff]%andb_true_iff
                                  Hnp'%negb_true_iff].
    apply bool_decide_eq_false in Hnp'.
    destruct (Hraw k v Hv Hs) as [?|[?|[?|?]]]; [by left|by right|done|].
    congruence.
  - intros Hdata.
    exists ((λ '(k, x), (k, as_written x)) <$> snapshot p idTokenClaims (now env)).
    split_and!.
    + rewrite parse_stringify_object_written; [done|apply snapshot_NoDup|].
      by apply snapshot_Forall.
    + apply keys_written.
    + by rewrite obj_get_written, Hprov.
    + by rewrite obj_get_written, Hupd.
Qed.
(** ** Parsed objects have distinct property names *)

Lemma parse_members_NoDup fuel : ∀ acc cs o r,
  parse_members fuel acc cs = Some (o, r) →
  NoDup (keys acc) → NoDup (keys o).
Proof.
  induction fuel as [|fuel IH]; intros acc cs o r; [done|].
  rewrite parse_members_unfold.
  destruct cs as [|q cs']; [done|].
  destruct (q =? QUOTE); [|done].
  destruct (parse_chars cs') as [[k r0]|]; [|done]. simpl.
  destruct (skip_ws r0) as [|d r1]; [done|].
  destruct (d =? COLON); [|done].
  destruct (parse_value fuel (skip_ws r1)) as [[v r2]|]; [|done]. simpl.
  destruct (skip_ws r2) as [|e r3]; [done|].
  destruct (e =? COMMA).
  - intros Hrec Hnd. eapply IH; [done|]. by apply NoDup_keys_obj_define.
  - destruct (e =? RBRACE); [|done].
    intros [= <- <-] Hnd. by apply NoDup_keys_obj_define.
Qed.

Lemma parse_value_unfold_object fuel cs o r :
  parse_value fuel cs = Some (VObj o, r) →
  o = [] ∨ ∃ fuel' cs', parse_members fuel' [] cs' = Some (o, r).
Proof.
  destruct fuel as [|fuel]; [done|]. rewrite parse_value_unfold.
  destruct cs as [|c cs]; [done|].
  destruct (c =? LBRACE).
  - destruct (skip_ws cs) as [|d r0]; [done|].
    destruct (d =? RBRACE); [intros [= <- <-]; by left|].
    destruct (parse_members fuel [] (d :: r0)) as [[o' r']|] eqn:Hm; [|done].
    intros [= <- <-]. right. eauto.
  - destruct (c =? LBRACKET).
    { destruct (skip_ws cs) as [|d r0]; [done|].
      destruct (d =? RBRACKET); [done|].
      by destruct (parse_elements fuel (d :: r0)) as [[]|]. }
    destruct (c =? QUOTE); [by destruct (parse_chars cs) as [[]|]|].
    destruct (c =? 116); [by destruct (strip_prefix _ _)|].
    destruct (c =? 102); [by destruct (strip_prefix _ _)|].
    destruct (c =? 110); [by destruct (strip_prefix _ _)|].
    unfold parse_number. destruct (span_number _) as [l r0].
    by destruct (JSONNumber l).
Qed.

(** The names of a parsed object are distinct. *)
Lemma JSON_parse_object_NoDup text o :
  JSON_parse text = Some (VObj o) → NoDup (keys o).
Proof.
  unfold JSON_parse.
  destruct (parse_value _ _) as [[v r]|] eqn:Hp; [|done].
  destruct (skip_ws r); [|done]. intros [= ->].
  apply parse_value_unfold_object in Hp as [->|(fuel' & cs' & Hm)].
  - apply NoDup_nil_2.
  - eapply parse_members_NoDup; [done|]. apply NoDup_nil_2.
Qed.

(** ** What [JSON.parse] returns *)

Lemma parse_is_data fuel :
  (∀ cs v r, parse_value fuel cs = Some (v, r) → is_data v = true)
  ∧ (∀ cs l r, parse_elements fuel cs = Some (l, r) →
       forallb is_data l = true)
  ∧ (∀ acc cs o r, parse_members fuel acc cs = Some (o, r) →
       NoDup (keys acc) → Forall (λ e, is_data e.2 = true) acc →
       NoDup (keys o) ∧ Forall (λ e, is_data e.2 = true) o).
Proof.
  induction fuel as [|fuel (IHv & IHe & IHm)]; [done|]. split_and!.
  - intros cs v r. rewrite parse_value_unfold.
    destruct cs as [|c cs]; [done|].
    destruct (c =? LBRACE).
    { destruct (skip_ws cs) as [|d r0]; [done|].
      destruct (d =? RBRACE); [by intros [= <- <-]|].
      destruct (parse_members fuel [] (d :: r0)) as [[o' r']|] eqn:Hm; [|done].
      intros [= <- <-].
      destruct (IHm _ _ _ _ Hm) as [Hnd Hall]; [apply NoDup_nil_2|done|].
      by apply is_data_object. }
    destruct (c =? LBRACKET).
    { destruct (skip_ws cs) as [|d r0]; [done|].
      destruct (d =? RBRACKET); [by intros [= <- <-]|].
      destruct (parse_elements fuel (d :: r0)) as [[l' r']|] eqn:He; [|done].
      intros [= <- <-]. cbn [is_data]. by eapply IHe. }
    destruct (c =? QUOTE).
    { destruct (parse_chars cs) as [[]|]; [|done]. by intros [= <- <-]. }
    destruct (c =? 116).
    { destruct (strip_prefix _ _); [|done]. by intros [= <- <-]. }
    destruct (c =? 102).
    { destruct (strip_prefix _ _); [|done]. by intros [= <- <-]. }
    destruct (c =? 110).
    { destruct (strip_prefix _ _); [|done]. by intros [= <- <-]. }
    unfold parse_number. destruct (span_number _) as [l r0].
    destruct (JSONNumber l); [|done]. by intros [= <- <-].
  - intros cs l r. rewrite parse_elements_unfold.
    destruct (parse_value fuel cs) as [[v r0]|] eqn:Hv; [|done]. simpl.
    destruct (skip_ws r0) as [|d r1]; [done|].
    destruct (d =? COMMA).
    + destruct (parse_elements fuel (skip_ws r1)) as [[l' r']|] eqn:He;
        [|done].
      intros [= <- <-]. simpl. by rewrite (IHv _ _ _ Hv), (IHe _ _ _ He).
    + destruct (d =? RBRACKET); [|done].
      intros [= <- <-]. simpl. by rewrite (IHv _ _ _ Hv).
  - intros acc cs o r. rewrite parse_members_unfold.
    destruct cs as [|q cs']; [done|].
    destruct (q =? QUOTE); [|done].
    destruct (parse_chars cs') as [[k r0]|]; [|done]. simpl.
    destruct (skip_ws r0) as [|d r1]; [done|].
    destruct (d =? COLON); [|done].
    destruct (parse_value fuel (skip_ws r1)) as [[v r2]|] eqn:Hv; [|done].
    simpl. destruct (skip_ws r2) as [|e r3]; [done|].
    assert (Forall (λ e, is_data e.2 = true) acc →
            Forall (λ e, is_data e.2 = true) (obj_define acc k v)) as Hdef.
    { intros Hacc. apply Forall_obj_define; [|done]. by eapply IHv. }
    destruct (e =? COMMA).
    + intros Hrec Hnd Hacc.
      eapply IHm; [done| |by apply Hdef]. by apply NoDup_keys_obj_define.
    + destruct (e =? RBRACE); [|done].
      intros [= <- <-] Hnd Hacc.
      split; [by apply NoDup_keys_obj_define|by apply Hdef].
Qed.

(** X16. What [JSON.parse] returns has no [undefined], and every object in
    it has distinct names.  Writing it with any indentation and reading the
    text again gives the same value with [null] in place of every number
    that is not finite, such as the infinity a literal that is too large is
    read as; it gives the same value when all its numbers are finite, and
    only then. *)
Theorem parsed_value_reads_back `{!NumberLaws} text v space :
  JSON_parse text = Some v →
  is_data v = true
  ∧ ∃ text', JSON_stringify v space = Some text'
             ∧ JSON_parse text' = Some (as_written v)
             ∧ (as_written v = v ↔ is_json v = true).
Proof.
  intros Hparse.
  assert (is_data v = true) as Hdata.
  { unfold JSON_parse in Hparse.
    destruct (parse_value _ _) as [[v' r]|] eqn:Hp; [|done].
    destruct (skip_ws r); [|done]. injection Hparse as ->.
    by eapply (proj1 (parse_is_data _)). }
  split; [done|].
  destruct (parse_stringify_written v space Hdata) as (text' & Ht & Hp).
  exists text'. split_and!; [done..|]. split.
  - by apply is_json_as_written.
  - apply as_written_is_json.
Qed.
(** ** Projection of a stored snapshot *)

(** C2. When the stored value parses as an object, the handler adds its
    entries: in the access-token claims and in the ID-token claims alike,
    every entry of the snapshot whose name does not start with an
    underscore is found under [idp_] followed by its name, with its value;
    an entry whose name starts with an underscore changes nothing; and
    every claim name that is not [idp_] followed by the name of such an
    entry keeps the claim it had.  The handler then completes, or throws a
    TypeError from its closing log; it completes when [_provider] is
    missing or is a string, a number, a boolean or [null]. *)
Theorem projection_complete env event h userId r text snapshot_entries :
  resolve_user_id event = Some userId →
  createKindeAPI env = Resolved () →
  respond env (user_properties_request userId) = Resolved r →
  stored_claims (read_properties r) = Some text →
  JSON_parse text = Some (VObj snapshot_entries) →
  ∃ c h', handleTokensGeneration env event h = (c, h')
    ∧ (c = Normal () ∨ c = Throw TypeError)
    ∧ (match obj_get snapshot_entries (js "_provider") with
       | Some p => primitive p = true
       | None => True
       end → c = Normal ())
    ∧ ∀ token token',
        (token = accessToken h ∧ token' = accessToken h'
         ∨ token = idToken h ∧ token' = idToken h') →
        (∀ k v, (k, v) ∈ snapshot_entries →
                startsWith k [UNDERSCORE] = false →
                token' !! (js "idp_" ++ k) = Some v)
        ∧ (∀ k, startsWith k [UNDERSCORE] = true →
                token' !! (js "idp_" ++ k) = token !! (js "idp_" ++ k))
        ∧ (∀ name,
             (∀ k v, (k, v) ∈ snapshot_entries →
                     startsWith k [UNDERSCORE] = false →
                     name ≠ js "idp_" ++ k) →
             token' !! name = token !! name).
Proof.
  intros Hu Hapi Hget Hstored Hparse.
  rewrite (projection_fetched _ _ _ _ _ Hu Hapi Hget). simpl.
  rewrite Hstored, Hparse. simpl.
  eexists _, _; split_and!; [done|apply log_claims_added_cases| |].
  { intros Hprov. rewrite log_claims_added_normal; [done|]. simpl.
    destruct (obj_get snapshot_entries (js "_provider")); [by left|by right]. }
  apply JSON_parse_object_NoDup in Hparse.
  intros token token' [[-> ->]|[-> ->]]; split_and!.
  all: first
    [ intros k v Hin Hs; by apply project_lookup
    | intros k Hs; by apply project_lookup_metadata
    | intros name Hother; by apply project_lookup_other ].
Qed.

(** C7. When the stored value is present and is not valid JSON, the handler
    returns, and the claims of both tokens are what they were. *)
Theorem projection_malformed_adds_nothing env event h userId r text :
  resolve_user_id event = Some userId →
  createKindeAPI env = Resolved () →
  respond env (user_properties_request userId) = Resolved r →
  stored_claims (read_properties r) = Some text →
  JSON_parse text = None →
  ∃ h', handleTokensGeneration env event h = (Return, h')
    ∧ accessToken h' = accessToken h ∧ idToken h' = idToken h.
Proof.
  intros Hu Hapi Hget Hstored Hparse.
  rewrite (projection_fetched _ _ _ _ _ Hu Hapi Hget). simpl.
  rewrite Hstored, Hparse. by eexists.
Qed.

(** X17. A failure of the read is swallowed: when the request for the
    user's properties is rejected, or the response has no [idp_claims], or
    has it [null] or empty, the handler returns and both tokens keep their
    claims. *)
Lemma projection_absent_adds_nothing env event h userId :
  resolve_user_id event = Some userId →
  createKindeAPI env = Resolved () →
  (match respond env (user_properties_request userId) with
   | Rejected _ => True
   | Resolved r => stored_claims (read_properties r) = None
   end) →
  ∃ h', handleTokensGeneration env event h = (Return, h')
    ∧ accessToken h' = accessToken h ∧ idToken h' = idToken h.
Proof.
  intros Hu Hapi Hget.
  destruct (respond env (user_properties_request userId)) as [r|e] eqn:Hr.
  - rewrite (projection_fetched _ _ _ _ _ Hu Hapi Hr). simpl.
    rewrite Hget. by eexists.
  - rewrite (projection_fetch_rejected _ _ _ _ _ Hu Hapi Hr). by eexists.
Qed.

(** What the handler adds for a stored value that parses: the entries of
    the parsed value, whatever kind of value it is; its outcome is that of
    the closing log. *)
Lemma projection_of_parsed env event h userId r text idpClaims entries :
  resolve_user_id event = Some userId →
  createKindeAPI env = Resolved () →
  respond env (user_properties_request userId) = Resolved r →
  stored_claims (read_properties r) = Some text →
  JSON_parse text = Some idpClaims →
  Object_entries idpClaims = Some entries →
  handleTokensGeneration env event h
  = ((log_claims_added (claimsAdded entries) idpClaims h).1,
     {| requests := requests h ++ [user_properties_request userId];
        accessToken := project entries (accessToken h);
        idToken := project entries (idToken h) |}).
Proof.
  intros Hu Hapi Hget Hstored Hparse Hentries.
  rewrite (projection_fetched _ _ _ _ _ Hu Hapi Hget). simpl.
  rewrite Hstored, Hparse, Hentries. simpl. f_equal.
  apply log_claims_added_host.
Qed.

(** ** Stored values that are not objects *)

(** C10. A stored value that is valid JSON but not an object is not taken
    as malformed: for the array [[1,2]] the handler adds [idp_0] and [idp_1]
    with the elements as values, and for the string [ab] it adds [idp_0]
    and [idp_1] with the characters, to both tokens. *)
Theorem projection_of_array_and_string h :
  handleTokensGeneration (store [] (Resolved empty_response) (Some (js "[1,2]")))
    token_request h
  = (Normal (),
     {| requests := requests h ++ [user_properties_request (js "u1")];
        accessToken :=
          <[js "idp_1" := VNum (StringToNumber (js "2"))]>
            (<[js "idp_0" := VNum (StringToNumber (js "1"))]> (accessToken h));
        idToken :=
          <[js "idp_1" := VNum (StringToNumber (js "2"))]>
            (<[js "idp_0" := VNum (StringToNumber (js "1"))]> (idToken h)) |})
  ∧ handleTokensGeneration
      (store [] (Resolved empty_response) (Some (jsq "'ab'"))) token_request h
  = (Normal (),
     {| requests := requests h ++ [user_properties_request (js "u1")];
        accessToken :=
          <[js "idp_1" := VStr (js "b")]>
            (<[js "idp_0" := VStr (js "a")]> (accessToken h));
        idToken :=
          <[js "idp_1" := VStr (js "b")]>
            (<[js "idp_0" := VStr (js "a")]> (idToken h)) |}).
Proof.
  split.
  - by rewrite (projection_of_parsed _ _ _ (js "u1") _ (js "[1,2]")
      (VArr [VNum (StringToNumber (js "1")); VNum (StringToNumber (js "2"))])
      [(js "0", VNum (StringToNumber (js "1")));
       (js "1", VNum (StringToNumber (js "2")))]) by by vm_compute.
  - by rewrite (projection_of_parsed _ _ _ (js "u1") _ (jsq "'ab'")
      (VStr (js "ab")) [(js "0", VStr (js "a")); (js "1", VStr (js "b"))])
      by by vm_compute.
Qed.

(** ** Where the handlers miss the specification *)

(** C3 (the code fails it).  A claim named [__proto__] is not in the
    exclusion set and its value is a string, yet the filter's output does
    not have it: the assignment [claimsToStore[claimName] = claimValue]
    reaches the inherited setter and creates no property. *)
Theorem filter_drops_proto_claim :
  let idTokenClaims :=
    [(js "__proto__", VStr (js "x")); (js "sub", VStr (js "u1"))] in
  ignored (js "__proto__") = false
  ∧ obj_get idTokenClaims (js "__proto__") = Some (VStr (js "x"))
  ∧ obj_get (filter_claims idTokenClaims) (js "__proto__") = None
  ∧ filter_claims idTokenClaims = [(js "sub", VStr (js "u1"))].
Proof. by vm_compute. Qed.

(** C4 (the code fails it).  The call that creates the client is outside
    the [try] block: when it fails, the handler throws.  So does a stored
    value of [null], which parses and has no entries to list. *)
Theorem projection_throws h :
  handleTokensGeneration no_client token_request h
  = (Throw (Error (js "M2M client is not configured")), h)
  ∧ handleTokensGeneration
      (store [] (Resolved empty_response) (Some (js "null"))) token_request h
  = (Throw TypeError, sent h [user_properties_request (js "u1")]).
Proof.
  split.
  - by apply (projection_client_rejected _ _ _ (js "u1")).
  - by rewrite (projection_fetched _ _ _ (js "u1")
                  (listing [ {| prop_key := IDP_CLAIMS_PROPERTY_KEY;
                                prop_value := PropString (js "null") |} ])).
Qed.

(** ** Further properties of the capture handler *)

(** X1. Whatever the event and the environment, an invocation of the
    capture handler sends its requests in one order: the listing first, then
    at most one creation, then at most one write; it stops after any of
    them or sends none.  The claims of the two tokens are left as they
    were. *)
Theorem capture_request_discipline env event h :
  ∃ c h' l,
    captureIdpClaimsWorkflow env event h = (c, h')
    ∧ requests h' = requests h ++ l
    ∧ accessToken h' = accessToken h ∧ idToken h' = idToken h
    ∧ (l = [] ∨ l = [list_properties_request]
       ∨ l = [list_properties_request; create_property_request]
       ∨ ∃ userId written,
           l = [list_properties_request; patch_request userId written]
           ∨ l = [list_properties_request; create_property_request;
                  patch_request userId written]).
Proof.
  assert (∀ c l,
    (l = [] ∨ l = [list_properties_request]
       ∨ l = [list_properties_request; create_property_request]
       ∨ ∃ userId written,
           l = [list_properties_request; patch_request userId written]
           ∨ l = [list_properties_request; create_property_request;
                  patch_request userId written]) →
    ∃ (c' : completion ()) h' l',
      (c, sent h l) = (c', h')
      ∧ requests h' = requests h ++ l'
      ∧ accessToken h' = accessToken h ∧ idToken h' = idToken h
      ∧ (l' = [] ∨ l' = [list_properties_request]
         ∨ l' = [list_properties_request; create_property_request]
         ∨ ∃ userId written,
             l' = [list_properties_request; patch_request userId written]
             ∨ l' = [list_properties_request; create_property_request;
                     patch_request userId written])) as Hshape.
  { intros c l Hl. by exists c, (sent h l), l. }
  unfold captureIdpClaimsWorkflow.
  destruct (auth_provider event) as [p|];
    [|by eexists _, h, []; rewrite app_nil_r; split_and!; [..|left]].
  destruct (negb _);
    [by eexists _, h, []; rewrite app_nil_r; split_and!; [..|left]|].
  destruct (claims p) as [idTokenClaims|];
    [|by eexists _, h, []; rewrite app_nil_r; split_and!; [..|left]].
  destruct (truthy (auth_user_id event)) as [userId|];
    [|by eexists _, h, []; rewrite app_nil_r; split_and!; [..|left]].
  unfold mbind, mret, M_bind, M_ret, try_catch, await, throw.
  destruct (createKindeAPI env); simpl;
    [|by eexists _, h, []; rewrite app_nil_r; split_and!; [..|left]].
  rewrite kindeAPI_run.
  destruct (respond env list_properties_request) as [resp|]; simpl;
    [|apply Hshape; by right; left].
  destruct (data resp) as [d|]; simpl; [|apply Hshape; by right; left].
  destruct (listed (data_properties d)); simpl.
  - rewrite kindeAPI_run, sent_sent.
    destruct (respond env (patch_request _ _)); simpl;
      apply Hshape; do 3 right; eexists _, _; by left.
  - rewrite kindeAPI_run, sent_sent.
    destruct (respond env create_property_request); simpl;
      [|apply Hshape; by do 2 right; left].
    rewrite kindeAPI_run, sent_sent.
    destruct (respond env (patch_request _ _)); simpl;
      apply Hshape; do 3 right; eexists _, _; by right.
Qed.

(** X3. Once the event is accepted, a failure of the client or of the
    listing is thrown as it is: when [createKindeAPI] rejects, nothing has
    been sent; when the listing is rejected, or its response has no [data],
    the listing is the only request.  Nothing is created or written. *)
Theorem capture_failures_are_thrown env event h p idTokenClaims userId :
  auth_provider event = Some p →
  protocol p = Some (js "oauth2") →
  claims p = Some idTokenClaims →
  truthy (auth_user_id event) = Some userId →
  (∀ e, createKindeAPI env = Rejected e →
     captureIdpClaimsWorkflow env event h = (Throw e, h))
  ∧ (createKindeAPI env = Resolved () →
     (∀ e, respond env list_properties_request = Rejected e →
        captureIdpClaimsWorkflow env event h
        = (Throw e, sent h [list_properties_request]))
     ∧ (∀ r, respond env list_properties_request = Resolved r →
        data r = None →
        captureIdpClaimsWorkflow env event h
        = (Throw TypeError, sent h [list_properties_request]))).
Proof.
  unfold captureIdpClaimsWorkflow. intros -> Hproto -> ->.
  rewrite bool_decide_eq_true_2 by done. simpl.
  unfold mbind, mret, M_bind, M_ret, try_catch, await, throw.
  split; [intros e ->; done|]. intros ->. simpl. rewrite kindeAPI_run.
  split; [intros e ->; done|]. intros r -> ->. done.
Qed.

(** The write of an invocation is for the user of the event and carries the
    serialized snapshot of the event's claims. *)
Lemma capture_write_is env event h p idTokenClaims r :
  auth_provider event = Some p →
  claims p = Some idTokenClaims →
  r ∈ requests (captureIdpClaimsWorkflow env event h).2 →
  r ∉ requests h →
  req_method r = PATCH →
  ∃ userId,
    truthy (auth_user_id event) = Some userId
    ∧ r = patch_request userId
            (stringify_object (snapshot p idTokenClaims (now env)) 2).
Proof.
  intros Hp Hc Hin Hnew Hm. revert Hin.
  unfold captureIdpClaimsWorkflow. rewrite Hp, Hc.
  destruct (negb _); [done|].
  destruct (truthy (auth_user_id event)) as [userId|]; [|done].
  unfold mbind, mret, M_bind, M_ret, try_catch, await, throw.
  destruct (createKindeAPI env); simpl; [|done].
  rewrite kindeAPI_run.
  assert (∀ l, r ∈ requests (sent h l) →
            Forall (λ r', req_method r' = PATCH →
              r' = patch_request userId
                (stringify_object (snapshot p idTokenClaims (now env)) 2)) l →
            ∃ userId',
              Some userId = Some userId'
              ∧ r = patch_request userId'
                (stringify_object (snapshot p idTokenClaims (now env)) 2))
    as Hpick.
  { intros l [?|Hl]%elem_of_app Hall; [done|].
    rewrite Forall_forall in Hall. exists userId. split; [done|].
    by apply Hall. }
  destruct (respond env list_properties_request) as [resp|]; simpl;
    [|intros Hin; apply (Hpick _ Hin); by repeat constructor].
  destruct (data resp) as [d|]; simpl;
    [|intros Hin; apply (Hpick _ Hin); by repeat constructor].
  destruct (listed (data_properties d)); simpl.
  - rewrite kindeAPI_run, sent_sent.
    destruct (respond env (patch_request _ _)); simpl;
      intros Hin; apply (Hpick _ Hin); by repeat constructor.
  - rewrite kindeAPI_run, sent_sent.
    destruct (respond env create_property_request); simpl.
    + rewrite kindeAPI_run, sent_sent.
      destruct (respond env (patch_request _ _)); simpl;
        intros Hin; apply (Hpick _ Hin); by repeat constructor.
    + intros Hin. apply (Hpick _ Hin). by repeat constructor.
Qed.

(** X14. What the handler writes does not depend on the store: in two
    environments that agree on the time, whatever their requests return,
    the writes of the same event are the same request.  The handler never
    reads the stored value, so a write replaces it and merges nothing. *)
Theorem capture_write_ignores_store env1 env2 event h1 h2 r1 r2 :
  now env1 = now env2 →
  r1 ∈ requests (captureIdpClaimsWorkflow env1 event h1).2 →
  r1 ∉ requests h1 → req_method r1 = PATCH →
  r2 ∈ requests (captureIdpClaimsWorkflow env2 event h2).2 →
  r2 ∉ requests h2 → req_method r2 = PATCH →
  r1 = r2.
Proof.
  intros Hnow Hin1 Hnew1 Hm1 Hin2 Hnew2 Hm2.
  destruct (auth_provider event) as [p|] eqn:Hp.
  - destruct (claims p) as [idTokenClaims|] eqn:Hc.
    + destruct (capture_write_is _ _ _ _ _ _ Hp Hc Hin1 Hnew1 Hm1)
        as (u1 & Hu1 & ->).
      destruct (capture_write_is _ _ _ _ _ _ Hp Hc Hin2 Hnew2 Hm2)
        as (u2 & Hu2 & ->).
      rewrite Hnow. congruence.
    + exfalso. revert Hin1. unfold captureIdpClaimsWorkflow.
      rewrite Hp, Hc. by destruct (negb _).
  - exfalso. revert Hin1. unfold captureIdpClaimsWorkflow. by rewrite Hp.
Qed.
(** ** Further properties of the filter and of the snapshot *)

Lemma filter_loop_app entries : ∀ claimsToStore,
  NoDup (keys claimsToStore ++ keys entries) →
  filter_loop entries claimsToStore
  = claimsToStore ++ List.filter (λ e, kept e.1 e.2) entries.
Proof.
  induction entries as [|[k v] entries IH]; intros acc Hnd; simpl.
  - by rewrite app_nil_r.
  - assert (NoDup (keys acc ++ keys entries)) as Hnd'.
    { apply NoDup_app in Hnd as (Ha & Hdisj & Hes).
      apply NoDup_cons in Hes as [_ Hes]. apply NoDup_app. split_and!; try done.
      intros x Hx Hin. apply (Hdisj x Hx). by right. }
    unfold kept.
    destruct (negb (ignored k) && negb (is_nullish v)); simpl; [|by apply IH].
    unfold obj_assign. destruct (decide (k = PROTO)) as [->|Hp].
    + rewrite !bool_decide_eq_true_2 by done. simpl. by apply IH.
    + rewrite !bool_decide_eq_false_2 by done. simpl.
      rewrite obj_define_fresh.
      * rewrite IH; [by rewrite <-app_assoc|].
        rewrite fmap_app, <-app_assoc. done.
      * apply NoDup_app in Hnd as (_ & Hdisj & _).
        intros Hin. apply (Hdisj k Hin). by left.
Qed.

(** X5. The filter keeps the entries of the raw claims in their order: its
    output is the list of the entries whose name is not ignored, whose
    value is neither [null] nor [undefined], and whose name is not
    [__proto__]. *)
Theorem filter_claims_is_filter idTokenClaims :
  NoDup (keys idTokenClaims) →
  filter_claims idTokenClaims
  = List.filter (λ e, kept e.1 e.2) idTokenClaims.
Proof. intros Hnd. unfold filter_claims. by rewrite filter_loop_app. Qed.

Lemma snapshot_metadata_NoDup p idTokenClaims time :
  NoDup (keys (snapshot p idTokenClaims time)).
Proof.
  destruct metadata_not_proto as [Hp Hl]. unfold snapshot.
  rewrite !obj_assign_define by done.
  do 2 apply NoDup_keys_obj_define.
  apply NoDup_keys_filter_loop, NoDup_nil_2.
Qed.

(** X4. Whatever the raw claims are, the snapshot has distinct names, its
    [_provider] is the provider of the event and its [_last_updated] is the
    time: a raw claim with one of these names is overwritten.  Under every
    other name the snapshot has what the filter kept. *)
Theorem snapshot_metadata p idTokenClaims time :
  NoDup (keys (snapshot p idTokenClaims time))
  ∧ obj_get (snapshot p idTokenClaims time) (js "_provider")
    = Some (VStr (provider_name p))
  ∧ obj_get (snapshot p idTokenClaims time) (js "_last_updated")
    = Some (VStr time)
  ∧ ∀ k, k ≠ js "_provider" → k ≠ js "_last_updated" →
      obj_get (snapshot p idTokenClaims time) k
      = obj_get (filter_claims idTokenClaims) k.
Proof.
  split; [apply snapshot_metadata_NoDup|].
  destruct metadata_not_proto as [Hp Hl]. unfold snapshot.
  rewrite !obj_assign_define by done. split_and!.
  - rewrite obj_get_define_ne by (intros Heq; vm_compute in Heq; discriminate Heq).
    apply obj_get_define_eq.
  - apply obj_get_define_eq.
  - intros k Hk1 Hk2. by rewrite !obj_get_define_ne.
Qed.
(** ** The text of the capture reads back *)

(** X15. [JSON.parse] undoes [JSON.stringify] on nested data, at every
    indentation: an object with distinct names whose values are JSON values
    of any depth (arrays and objects included, no [undefined], distinct
    names in every object) is read back from its text unchanged. *)
Theorem parse_stringify_nested `{!NumberLaws} o space :
  NoDup (keys o) → Forall (λ e, is_json e.2 = true) o →
  ∃ text,
    JSON_stringify (VObj o) space = Some text
    ∧ JSON_parse text = Some (VObj o).
Proof.
  intros Hnd Hall. by apply parse_stringify_any, is_json_object.
Qed.


(** ** Capture, then projection *)

Lemma startsWith_app (p s : list N) : startsWith (p ++ s) p = true.
Proof.
  induction p as [|a p IH]; simpl; [by destruct s|].
  by rewrite N.eqb_refl, IH.
Qed.

Lemma elem_of_obj_define o k v (e : list N * value) :
  e ∈ obj_define o k v → e = (k, v) ∨ e ∈ o.
Proof.
  induction o as [|[k' v'] o IH]; simpl.
  - intros ->%list_elem_of_singleton. by left.
  - destruct (bool_decide (k' = k)).
    + intros [->|?]%elem_of_cons; [by left|]. right. by right.
    + intros [->|[->|?]%IH]%elem_of_cons; [right; by left|by left|].
      right. by right.
Qed.

(** An entry of the snapshot is a metadata field or a kept raw claim. *)
Lemma elem_of_snapshot p idTokenClaims time k v :
  NoDup (keys idTokenClaims) →
  (k, v) ∈ snapshot p idTokenClaims time →
  k = js "_provider" ∨ k = js "_last_updated"
  ∨ ((k, v) ∈ idTokenClaims ∧ kept k v = true).
Proof.
  intros Hnd. destruct metadata_not_proto as [Hp Hl]. unfold snapshot.
  rewrite !obj_assign_define by done.
  intros [[= -> ->]|[[= -> ->]|Hin]%elem_of_obj_define]%elem_of_obj_define;
    [tauto..|].
  unfold filter_claims in Hin. rewrite filter_loop_app in Hin by done.
  simpl in Hin. apply list_elem_of_In, filter_In in Hin as [Hin Hk].
  right. right. split; [by apply list_elem_of_In|done].
Qed.

(** X7. Capture and projection compose.  When the store hands back, as the
    [idp_claims] of the user, the text the capture handler serialized for
    raw claims that are JSON values, the projection handler completes (the
    [_provider] of the snapshot is a string, so the closing log is made) and,
    in both tokens: every raw claim that the filter keeps and whose name
    does not start with an underscore is the claim [idp_] followed by its
    name; a name whose claim is missing, dropped by the filter or starts
    with an underscore adds nothing; and a claim name that does not start
    with [idp_] keeps what it had. *)
Theorem capture_then_projection_agree `{!NumberLaws}
    env event h userId r p idTokenClaims time :
  resolve_user_id event = Some userId →
  createKindeAPI env = Resolved () →
  respond env (user_properties_request userId) = Resolved r →
  stored_claims (read_properties r)
  = Some (stringify_object (snapshot p idTokenClaims time) 2) →
  NoDup (keys idTokenClaims) →
  Forall (λ e, is_json e.2 = true) idTokenClaims →
  ∃ h', handleTokensGeneration env event h = (Normal (), h')
    ∧ ∀ token token',
        (token = accessToken h ∧ token' = accessToken h'
         ∨ token = idToken h ∧ token' = idToken h') →
        (∀ k v, obj_get idTokenClaims k = Some v → kept k v = true →
                startsWith k [UNDERSCORE] = false →
                token' !! (js "idp_" ++ k) = Some v)
        ∧ (∀ k,
             (∀ v, obj_get idTokenClaims k = Some v →
                   kept k v = false ∨ startsWith k [UNDERSCORE] = true) →
             token' !! (js "idp_" ++ k) = token !! (js "idp_" ++ k))
        ∧ (∀ name, startsWith name (js "idp_") = false →
                   token' !! name = token !! name).
Proof.
  intros Hu Hapi Hget Hstored Hnd Hprim.
  rewrite (projection_of_parsed _ _ _ _ _ _ _ _ Hu Hapi Hget Hstored
             (parse_stringify_captured_json p idTokenClaims time Hprim)
             eq_refl).
  rewrite log_claims_added_normal
    by (simpl; rewrite snapshot_provider; by left).
  eexists. split; [done|]. simpl.
  pose proof (snapshot_metadata_NoDup p idTokenClaims time) as Hsnap.
  assert (∀ (token : gmap (list N) value),
    (∀ k v, obj_get idTokenClaims k = Some v → kept k v = true →
            startsWith k [UNDERSCORE] = false →
            project (snapshot p idTokenClaims time) token !! (js "idp_" ++ k)
            = Some v)
    ∧ (∀ k,
         (∀ v, obj_get idTokenClaims k = Some v →
               kept k v = false ∨ startsWith k [UNDERSCORE] = true) →
         project (snapshot p idTokenClaims time) token !! (js "idp_" ++ k)
         = token !! (js "idp_" ++ k))
    ∧ (∀ name, startsWith name (js "idp_") = false →
         project (snapshot p idTokenClaims time) token !! name
         = token !! name)) as Hproj.
  { intros token. split_and!.
    - intros k v Hget' Hkept Hs. apply project_lookup; [done| |done].
      apply obj_get_Some_elem_of.
      destruct metadata_not_proto as [Hp Hl]. unfold snapshot.
      rewrite !obj_assign_define by done.
      rewrite !obj_get_define_ne by (intros <-; by vm_compute in Hs).
      unfold kept in Hkept.
      apply andb_true_iff in Hkept as [[Hi Hn]%andb_true_iff Hnp].
      apply filter_claims_complete; try done.
      + by apply negb_true_iff.
      + by apply negb_true_iff.
      + apply negb_true_iff in Hnp. by apply bool_decide_eq_false in Hnp.
    - intros k Hk. apply project_lookup_other.
      intros k' v' Hin Hs ->%idp_prefix_inj.
      apply elem_of_snapshot in Hin as [->|[->|[Hin Hkept]]];
        [by vm_compute in Hs|by vm_compute in Hs| |done].
      apply elem_of_obj_get in Hin; [|done].
      destruct (Hk _ Hin); congruence.
    - intros name Hname'. apply project_lookup_other.
      intros k' v' _ _ ->. by rewrite startsWith_app in Hname'. }
  intros token token' [[-> ->]|[-> ->]]; apply Hproj.
Qed.
(** ** Further properties of the projection handler *)

(** The projection overrides a token's claims with the claims it builds. *)
Lemma project_lookup_union entries : ∀ (token : gmap (list N) value) name,
  project entries token !! name
  = match project entries ∅ !! name with
    | Some v => Some v
    | None => token !! name
    end.
Proof.
  induction entries as [|[k v] entries IH]; intros token name; simpl.
  - by rewrite lookup_empty.
  - destruct (startsWith k [UNDERSCORE]); [apply IH|].
    rewrite (IH (<[_ := _]> token)), (IH (<[_ := _]> ∅)).
    destruct (project entries ∅ !! name); [done|].
    destruct (decide (js "idp_" ++ k = name)) as [<-|Hne].
    + by rewrite !lookup_insert_eq.
    + by rewrite !lookup_insert_ne, lookup_empty.
Qed.

Lemma project_idempotent entries (token : gmap (list N) value) :
  project entries (project entries token) = project entries token.
Proof.
  apply map_eq. intros name.
  rewrite (project_lookup_union entries (project entries token)).
  rewrite (project_lookup_union entries token).
  by destruct (project entries ∅ !! name).
Qed.

(** What an invocation does to a host, whatever the host is: it sends the
    requests [l] and projects the entries [entries]. *)
Lemma projection_effect env event :
  ∃ entries l,
    (∀ h,
       requests (handleTokensGeneration env event h).2 = requests h ++ l
       ∧ accessToken (handleTokensGeneration env event h).2
         = project entries (accessToken h)
       ∧ idToken (handleTokensGeneration env event h).2
         = project entries (idToken h))
    ∧ (l = []
       ∨ ∃ userId, resolve_user_id event = Some userId
                   ∧ l = [user_properties_request userId]).
Proof.
  destruct (resolve_user_id event) as [userId|] eqn:Hu.
  - destruct (createKindeAPI env) as [[]|e] eqn:Hapi.
    + destruct (respond env (user_properties_request userId)) as [r|e] eqn:Hr.
      * destruct (stored_claims (read_properties r)) as [text|] eqn:Hs;
          [destruct (JSON_parse text) as [v|] eqn:Hv;
           [destruct (Object_entries v) as [entries|] eqn:He|]|].
        -- exists entries, [user_properties_request userId].
           split; [|right; eauto]. intros h.
           by rewrite (projection_of_parsed _ _ _ _ _ _ _ _ Hu Hapi Hr Hs Hv He).
        -- exists [], [user_properties_request userId].
           split; [|right; eauto]. intros h.
           rewrite (projection_fetched _ _ _ _ _ Hu Hapi Hr). simpl.
           by rewrite Hs, Hv, He.
        -- exists [], [user_properties_request userId].
           split; [|right; eauto]. intros h.
           rewrite (projection_fetched _ _ _ _ _ Hu Hapi Hr). simpl.
           by rewrite Hs, Hv.
        -- exists [], [user_properties_request userId].
           split; [|right; eauto]. intros h.
           rewrite (projection_fetched _ _ _ _ _ Hu Hapi Hr). simpl.
           by rewrite Hs.
      * exists [], [user_properties_request userId].
        split; [|right; eauto]. intros h.
        by rewrite (projection_fetch_rejected _ _ _ _ _ Hu Hapi Hr).
    + exists [], []. split; [|by left]. intros h.
      rewrite (projection_client_rejected _ _ _ _ _ Hu Hapi). simpl.
      by rewrite app_nil_r.
  - exists [], []. split; [|by left]. intros h.
    rewrite (projection_no_user _ _ _ Hu). simpl. by rewrite app_nil_r.
Qed.

(** X9. An invocation of the projection handler sends at most one request,
    the read of the properties of the event's user, whatever the host and
    the environment: it creates and writes nothing.  An event without a user
    identifier, or with empty ones, makes it return at once. *)
Theorem projection_request_discipline env event :
  (∃ l, (∀ h, requests (handleTokensGeneration env event h).2
              = requests h ++ l)
        ∧ (l = []
           ∨ ∃ userId, resolve_user_id event = Some userId
                       ∧ l = [user_properties_request userId]))
  ∧ (truthy (event_user_id event) = None →
     truthy (context_user_id event) = None →
     ∀ h, handleTokensGeneration env event h = (Return, h)).
Proof.
  split.
  - destruct (projection_effect env event) as (entries & l & Hrun & Hl).
    exists l. split; [|done]. intros h. apply Hrun.
  - intros He Hc h. apply projection_no_user.
    unfold resolve_user_id. by rewrite He, Hc.
Qed.

(** X8. The projection handler only adds: whatever it does, a claim name
    that does not start with [idp_] has in each token the claim it had, and
    a name that had a claim still has one. *)
Theorem projection_only_adds env event h token token' :
  (token = accessToken h
   ∧ token' = accessToken (handleTokensGeneration env event h).2
   ∨ token = idToken h
     ∧ token' = idToken (handleTokensGeneration env event h).2) →
  (∀ name, startsWith name (js "idp_") = false →
           token' !! name = token !! name)
  ∧ (∀ name, is_Some (token !! name) → is_Some (token' !! name)).
Proof.
  destruct (projection_effect env event) as (entries & l & Hrun & _).
  destruct (Hrun h) as (_ & Ha & Hi).
  assert (∀ t : gmap (list N) value,
    (∀ name, startsWith name (js "idp_") = false →
             project entries t !! name = t !! name)
    ∧ (∀ name, is_Some (t !! name) → is_Some (project entries t !! name)))
    as Hproj.
  { intros t. split.
    - intros name Hname. apply project_lookup_other.
      intros k v _ _ ->. by rewrite startsWith_app in Hname.
    - intros name Hsome. rewrite project_lookup_union.
      by destruct (project entries ∅ !! name). }
  intros [[-> ->]|[-> ->]]; rewrite ?Ha, ?Hi; apply Hproj.
Qed.

(** X10. The two tokens get the same claims: after an invocation, every
    claim name either has the same claim in the access token and in the ID
    token, or has in each of them the claim it had before. *)
Theorem projection_same_in_both_tokens env event h name :
  accessToken (handleTokensGeneration env event h).2 !! name
  = idToken (handleTokensGeneration env event h).2 !! name
  ∨ (accessToken (handleTokensGeneration env event h).2 !! name
     = accessToken h !! name
     ∧ idToken (handleTokensGeneration env event h).2 !! name
       = idToken h !! name).
Proof.
  destruct (projection_effect env event) as (entries & l & Hrun & _).
  destruct (Hrun h) as (_ & -> & ->).
  rewrite (project_lookup_union entries (accessToken h)).
  rewrite (project_lookup_union entries (idToken h)).
  destruct (project entries ∅ !! name); [by left|by right].
Qed.

(** X11. Running the handler again on the claims it has produced, in the
    same environment, changes no claim of either token. *)
Theorem projection_is_idempotent env event h :
  accessToken
    (handleTokensGeneration env event
       (handleTokensGeneration env event h).2).2
  = accessToken (handleTokensGeneration env event h).2
  ∧ idToken
      (handleTokensGeneration env event
         (handleTokensGeneration env event h).2).2
    = idToken (handleTokensGeneration env event h).2.
Proof.
  destruct (projection_effect env event) as (entries & l & Hrun & _).
  destruct (Hrun (handleTokensGeneration env event h).2) as (_ & -> & ->).
  destruct (Hrun h) as (_ & -> & ->).
  by rewrite !project_idempotent.
Qed.

Lemma set_property_proto_null u :
  null_prototype u = false →
  set_property u PROTO PropNull
  = {| own_properties := own_properties u; null_prototype := true |}.
Proof.
  intros Hu. unfold set_property. rewrite Hu.
  by rewrite bool_decide_eq_true_2.
Qed.

(** The properties collected from a listing, from any [userProperties]. *)
Lemma collect_other l : ∀ u k,
  k ≠ PROTO →
  own_properties
    (foldl (λ u p, set_property u (prop_key p) (prop_value p)) u l) !! k
  = match last (filter (λ p, prop_key p = k) l) with
    | Some p => Some (prop_value p)
    | None => own_properties u !! k
    end.
Proof.
  induction l as [|a l IH]; intros u k Hk; simpl; [done|].
  rewrite IH by done. destruct (decide (prop_key a = k)) as [Ha|Ha].
  - rewrite filter_cons_True, last_cons by done.
    destruct (last (filter _ l)); [done|].
    unfold set_property. rewrite bool_decide_eq_false_2 by congruence.
    simpl. subst k. apply lookup_insert_eq.
  - rewrite filter_cons_False by done.
    destruct (last (filter _ l)); [done|].
    unfold set_property.
    destruct (bool_decide (prop_key a = PROTO) && negb (null_prototype u)).
    + by destruct (prop_value a).
    + simpl. by apply lookup_insert_ne.
Qed.

Lemma collect_null l : ∀ u k,
  null_prototype u = true →
  null_prototype
    (foldl (λ u p, set_property u (prop_key p) (prop_value p)) u l) = true
  ∧ own_properties
      (foldl (λ u p, set_property u (prop_key p) (prop_value p)) u l) !! k
    = match last (filter (λ p, prop_key p = k) l) with
      | Some p => Some (prop_value p)
      | None => own_properties u !! k
      end.
Proof.
  induction l as [|a l IH]; intros u k Hu; simpl; [done|].
  assert (set_property u (prop_key a) (prop_value a)
          = {| own_properties :=
                 <[prop_key a := prop_value a]> (own_properties u);
               null_prototype := true |}) as Hset.
  { unfold set_property. rewrite Hu, andb_false_r. done. }
  destruct (IH (set_property u (prop_key a) (prop_value a)) k) as [Hn Ho];
    [by rewrite Hset|].
  split; [done|]. rewrite Ho, Hset. simpl.
  destruct (decide (prop_key a = k)) as [Ha|Ha].
  - rewrite filter_cons_True, last_cons by done.
    destruct (last (filter _ l)); [done|]. subst k. apply lookup_insert_eq.
  - rewrite filter_cons_False by done.
    destruct (last (filter _ l)); [done|]. by apply lookup_insert_ne.
Qed.

Lemma collect_untouched l : ∀ u,
  null_prototype u = false →
  (∀ q, q ∈ l → prop_key q = PROTO → prop_value q ≠ PropNull) →
  null_prototype
    (foldl (λ u p, set_property u (prop_key p) (prop_value p)) u l) = false
  ∧ own_properties
      (foldl (λ u p, set_property u (prop_key p) (prop_value p)) u l) !! PROTO
    = own_properties u !! PROTO.
Proof.
  induction l as [|a l IH]; intros u Hu Hl; simpl; [done|].
  assert (null_prototype (set_property u (prop_key a) (prop_value a)) = false
          ∧ own_properties (set_property u (prop_key a) (prop_value a))
              !! PROTO = own_properties u !! PROTO) as [Hn Ho].
  { unfold set_property. rewrite Hu. simpl. rewrite andb_true_r.
    case_bool_decide as Ha.
    - specialize (Hl a (list_elem_of_here _ _) Ha).
      by destruct (prop_value a).
    - simpl. split; [done|]. by apply lookup_insert_ne. }
  destruct (IH (set_property u (prop_key a) (prop_value a))) as [Hn' Ho'];
    [done|intros q Hq; apply Hl; by right|].
  split; [done|]. by rewrite Ho'.
Qed.

Lemma collect_null_prototype l : ∀ u,
  null_prototype
    (foldl (λ u p, set_property u (prop_key p) (prop_value p)) u l) = true
  ↔ null_prototype u = true
    ∨ ∃ p, p ∈ l ∧ prop_key p = PROTO ∧ prop_value p = PropNull.
Proof.
  induction l as [|a l IH]; intros u; simpl.
  - split; [by left|]. by intros [?|(p & []%elem_of_nil & _)].
  - rewrite IH. split.
    + intros [Hset|(p & Hp & Hk & Hv)].
      * unfold set_property in Hset. destruct (null_prototype u) eqn:Hu;
          [by left|]. simpl in Hset. rewrite andb_true_r in Hset.
        case_bool_decide as Ha; [|done]. right. exists a.
        split; [by left|]. split; [done|].
        destruct (prop_value a); simpl in Hset; congruence.
      * right. exists p. split; [by right|done].
    + intros [Hu|(p & [->|Hp]%elem_of_cons & Hk & Hv)].
      * left. unfold set_property. by rewrite Hu, andb_false_r.
      * left. unfold set_property. rewrite Hk, Hv.
        rewrite bool_decide_eq_true_2 by done.
        by destruct (null_prototype u).
      * right. by exists p.
Qed.

(** X12. When the response lists a key other than [__proto__] more than
    once, the last listing gives the value: the object built from the
    listed properties has, under such a key, the value of the last property
    with that key.  A property with the key [__proto__] creates no property
    while the prototype is [Object.prototype]; one whose value is [null]
    makes the prototype [null], and then the later properties with that key
    are stored like the others. *)
Theorem collect_properties_last l :
  (∀ k, k ≠ PROTO →
     own_properties (collect_properties l) !! k
     = prop_value <$> last (filter (λ p, prop_key p = k) l))
  ∧ (null_prototype (collect_properties l) = true
     ↔ ∃ p, p ∈ l ∧ prop_key p = PROTO ∧ prop_value p = PropNull)
  ∧ (null_prototype (collect_properties l) = false →
     own_properties (collect_properties l) !! PROTO = None)
  ∧ (∀ l1 p l2,
       l = l1 ++ p :: l2 →
       prop_key p = PROTO → prop_value p = PropNull →
       (∀ q, q ∈ l1 → prop_key q = PROTO → prop_value q ≠ PropNull) →
       own_properties (collect_properties l) !! PROTO
       = prop_value <$> last (filter (λ q, prop_key q = PROTO) l2)).
Proof.
  unfold collect_properties. split_and!.
  - intros k Hk. rewrite collect_other by done.
    by destruct (last (filter _ l)).
  - rewrite collect_null_prototype. simpl. split; [by intros [?|?]|by right].
  - intros Hn. apply collect_untouched; [done|].
    intros q Hq Hk Hv.
    assert (null_prototype
              (foldl (λ u p, set_property u (prop_key p) (prop_value p))
                 no_properties l) = true) as Ht; [|congruence].
    apply collect_null_prototype. right. by exists q.
  - intros l1 p l2 -> Hk Hv Hl1. rewrite foldl_app. simpl.
    destruct (collect_untouched l1 no_properties eq_refl Hl1) as [Hn Ho].
    assert (set_property
              (foldl (λ u q, set_property u (prop_key q) (prop_value q))
                 no_properties l1) (prop_key p) (prop_value p)
            = {| own_properties :=
                   own_properties
                     (foldl (λ u q, set_property u (prop_key q) (prop_value q))
                        no_properties l1);
                 null_prototype := true |}) as ->.
    { rewrite Hk, Hv. by apply set_property_proto_null. }
    destruct (collect_null l2
                {| own_properties :=
                     own_properties
                       (foldl
                          (λ u q, set_property u (prop_key q) (prop_value q))
                          no_properties l1);
                   null_prototype := true |} PROTO eq_refl) as [_ ->].
    simpl. rewrite Ho. by destruct (last (filter _ l2)).
Qed.
(** ** Stored arrays *)

Lemma string_of_uint_inj d d' : string_of_uint d = string_of_uint d' → d = d'.
Proof.
  intros Heq. apply (f_equal uint_of_string) in Heq.
  assert (∀ u, uint_of_string (string_of_uint u) = u) as Hinv
    by (induction u as [|u IH|u IH|u IH|u IH|u IH|u IH|u IH|u IH|u IH|u IH];
        simpl; by rewrite ?IH).
  by rewrite !Hinv in Heq.
Qed.

Lemma index_key_inj i j : index_key i = index_key j → i = j.
Proof.
  intros Heq%string_of_uint_inj. by apply DecimalN.Unsigned.to_uint_inj.
Qed.

Lemma index_key_not_underscore i : startsWith (index_key i) [UNDERSCORE] = false.
Proof.
  unfold index_key. destruct i as [|p]; [done|]. simpl.
  pose proof (DecimalPos.Unsigned.to_uint_nonnil p) as Hnil.
  by destruct (Pos.to_uint p).
Qed.

Lemma NoDup_keys_array_entries (l : list value) :
  NoDup (keys (imap (λ i x, (index_key (N.of_nat i), x)) l)).
Proof.
  apply NoDup_alt. intros i j k.
  rewrite !list_lookup_fmap, !list_lookup_imap.
  destruct (l !! i) as [x|] eqn:Hi; [|done].
  destruct (l !! j) as [y|] eqn:Hj; [|done]. simpl.
  intros [= <-] [= Heq%index_key_inj]. lia.
Qed.

(** X13. When the stored value parses as an array, the handler completes
    (an array has no [_provider], so the closing log writes [unknown]) and
    every element of the array is, in both tokens, the claim [idp_]
    followed by the decimal index of the element. *)
Theorem projection_of_array env event h userId r text elements :
  resolve_user_id event = Some userId →
  createKindeAPI env = Resolved () →
  respond env (user_properties_request userId) = Resolved r →
  stored_claims (read_properties r) = Some text →
  JSON_parse text = Some (VArr elements) →
  ∃ h', handleTokensGeneration env event h = (Normal (), h')
    ∧ ∀ i x, elements !! i = Some x →
        accessToken h' !! (js "idp_" ++ index_key (N.of_nat i)) = Some x
        ∧ idToken h' !! (js "idp_" ++ index_key (N.of_nat i)) = Some x.
Proof.
  intros Hu Hapi Hget Hstored Hparse.
  rewrite (projection_of_parsed _ _ _ _ _ _ _ _ Hu Hapi Hget Hstored Hparse
             eq_refl).
  rewrite log_claims_added_normal by (simpl; by right).
  eexists. split; [done|]. simpl. intros i x Hi.
  split; apply project_lookup;
    try apply NoDup_keys_array_entries; try apply index_key_not_underscore;
    apply list_elem_of_lookup; exists i;
    by rewrite list_lookup_imap, Hi.
Qed.
End Properties.

(** * The integers satisfy the laws of numbers *)

Lemma int_digits_string_of_uint d : int_digits (string_of_uint d) = true.
Proof. induction d; simpl; done. Qed.

Lemma JSONNumber_unorm d : JSONNumber (string_of_uint (unorm d)) = true.
Proof.
  unfold unorm. pose proof (DecimalFacts.nzhead_nonzero d) as Hnz.
  destruct (nzhead d) as [|u|u|u|u|u|u|u|u|u|u]; try done;
    [by destruct (Hnz u)|..];
    apply (int_digits_string_of_uint u).
Qed.

Lemma to_uint_unorm p : Pos.to_uint p = unorm (Pos.to_uint p).
Proof.
  rewrite <-DecimalPos.Unsigned.to_of, DecimalPos.Unsigned.of_to. done.
Qed.

Lemma uint_of_string_of_uint d : uint_of_string (string_of_uint d) = d.
Proof. induction d; simpl; by rewrite ?IHd. Qed.

Lemma Z_of_string_of_uint d : Z_of_string (string_of_uint d) = Z.of_int (Pos d).
Proof.
  rewrite <-(uint_of_string_of_uint d) at 2.
  by destruct d.
Qed.

Lemma JSONNumber_string_of_Z z : JSONNumber (string_of_Z z) = true.
Proof.
  unfold string_of_Z, Z.to_int. destruct z as [|p|p]; [done| |].
  - rewrite to_uint_unorm. apply JSONNumber_unorm.
  - rewrite to_uint_unorm.
    pose proof (JSONNumber_unorm (Pos.to_uint p)) as Hn.
    destruct (JSONNumber_head _ Hn) as (c & s & Heq & [->|Hc]).
    + exfalso. revert Heq. unfold unorm.
      by destruct (nzhead _).
    + rewrite Heq in *. cbn [JSONNumber] in *.
      by destruct (c =? MINUS) eqn:Hm; [apply N.eqb_eq in Hm; subst|].
Qed.

Lemma Z_of_string_of_Z z : Z_of_string (string_of_Z z) = z.
Proof.
  unfold string_of_Z, Z.to_int. destruct z as [|p|p]; [done|..].
  - by rewrite Z_of_string_of_uint, <-(DecimalZ.of_to (Z.pos p)).
  - unfold Z_of_string. cbn [N.eqb MINUS Pos.eqb].
    by rewrite uint_of_string_of_uint, <-(DecimalZ.of_to (Z.neg p)).
Qed.

(** The text of an integer has no exponent. *)
Lemma exponent_text_string_of_uint d : exponent_text (string_of_uint d) = None.
Proof. induction d; simpl; done. Qed.

Lemma huge_exponent_string_of_Z z : huge_exponent (string_of_Z z) = false.
Proof.
  unfold huge_exponent, string_of_Z. destruct (Z.to_int z) as [d|d]; simpl;
    by rewrite exponent_text_string_of_uint.
Qed.

Lemma integers_laws : @NumberLaws integers.
Proof.
  split; intros [z| | |] Hf; try done; simpl.
  - apply JSONNumber_string_of_Z.
  - unfold integer_of_string.
    by rewrite huge_exponent_string_of_Z, Z_of_string_of_Z.
Qed.
(** * The theorems at concrete inputs *)

#[local] Existing Instance integers.

Lemma capture_unsupported_is_noop_witness :
  captureIdpClaimsWorkflow (store [] (Resolved empty_response) None)
    {| auth_provider :=
         Some {| protocol := Some (js "saml");
                 provider_name := js "okta";
                 claims := Some raw_claims |};
       auth_user_id := Some (js "u1") |}
    (fresh ∅ ∅)
  = (Return, fresh ∅ ∅).
Proof.
  apply capture_unsupported_is_noop. right. eexists. split; [reflexivity|].
  left. simpl. discriminate.
Defined.

Lemma capture_missing_user_throws_witness :
  captureIdpClaimsWorkflow (store [] (Resolved empty_response) None)
    (social_login (Some raw_claims) None) (fresh ∅ ∅)
  = (Throw (Error (js "User ID is required")), fresh ∅ ∅).
Proof.
  eapply capture_missing_user_throws; reflexivity.
Defined.

(** C1 fails on the code.  The listing does not show the property and the
    creation is rejected because the property already exists (another
    capture created it in between): the handler throws that rejection, and
    none of its requests is a write. *)
Lemma capture_already_exists_is_fatal :
  respond (store [] already_exists None) create_property_request
  = Rejected (ApiRejection PropertyAlreadyExists)
  ∧ ∃ h', captureIdpClaimsWorkflow (store [] already_exists None)
            (social_login (Some raw_claims) (Some (js "u1"))) (fresh ∅ ∅)
          = (Throw (ApiRejection PropertyAlreadyExists), h')
    ∧ Forall (λ r, req_method r ≠ PATCH) (requests h').
Proof.
  split; [reflexivity|]. eexists. split; [reflexivity|].
  simpl. by repeat constructor.
Qed.

Lemma capture_creation_outcome_witness :
  (∀ e, respond (store [] already_exists None) create_property_request
        = Rejected e →
     captureIdpClaimsWorkflow (store [] already_exists None)
       (social_login (Some raw_claims) (Some (js "u1"))) (fresh ∅ ∅)
     = (Throw e,
        sent (fresh ∅ ∅) [list_properties_request; create_property_request]))
  ∧ (∀ r', respond (store [] already_exists None) create_property_request
           = Resolved r' →
     captureIdpClaimsWorkflow (store [] already_exists None)
       (social_login (Some raw_claims) (Some (js "u1"))) (fresh ∅ ∅)
     = (match
          respond (store [] already_exists None)
            (patch_request (js "u1")
               (stringify_object
                  (snapshot
                     {| protocol := Some (js "oauth2");
                        provider_name := js "google";
                        claims := Some raw_claims |}
                     raw_claims (now (store [] already_exists None))) 2))
        with
        | Resolved _ => Normal ()
        | Rejected e => Throw e
        end,
        sent (fresh ∅ ∅)
          [list_properties_request; create_property_request;
           patch_request (js "u1")
             (stringify_object
                (snapshot
                   {| protocol := Some (js "oauth2");
                      provider_name := js "google";
                      claims := Some raw_claims |}
                   raw_claims (now (store [] already_exists None))) 2)])).
Proof.
  eapply (capture_creation_outcome (store [] already_exists None)
            (social_login (Some raw_claims) (Some (js "u1"))) (fresh ∅ ∅));
    reflexivity.
Defined.

(** C5 fails on the code.  For the raw claims [{ _x: 1 }] the handler
    writes a snapshot that has the name [_x], which starts with an
    underscore and is neither metadata field. *)
Lemma snapshot_keeps_underscore_claim :
  ∃ written,
    captureIdpClaimsWorkflow (store [] (Resolved empty_response) None)
      (social_login (Some [(js "_x", VInt 1)]) (Some (js "u1"))) (fresh ∅ ∅)
    = (Normal (),
       sent (fresh ∅ ∅)
         [list_properties_request; create_property_request;
          patch_request (js "u1") (stringify_object written 2)])
    ∧ JSON_parse (stringify_object written 2) = Some (VObj written)
    ∧ js "_x" ∈ keys written
    ∧ startsWith (js "_x") [UNDERSCORE] = true
    ∧ js "_x" ≠ js "_provider" ∧ js "_x" ≠ js "_last_updated".
Proof.
  exists [ (js "_x", VInt 1); (js "_provider", VStr (js "google"));
           (js "_last_updated", VStr (js "2026-01-01T00:00:00.000Z")) ].
  split_and!; try reflexivity; try by vm_compute.
  apply list_elem_of_In. vm_compute. by left.
Qed.

Lemma snapshot_reserved_names_witness :
  ∃ userId written,
    patch_request (js "u1")
      (stringify_object
         (snapshot (google (Some underscored_claims)) underscored_claims
            (js "2026-01-01T00:00:00.000Z")) 2)
    = patch_request userId (stringify_object written 2)
    ∧ written
      = [ (js "sub", VStr (js "u1")); (js "_provider", VStr (js "google"));
          (js "email", VStr (js "a@b.com"));
          (js "_last_updated", VStr (js "2026-01-01T00:00:00.000Z")) ]
    ∧ obj_get written (js "_provider") = Some (VStr (js "google"))
    ∧ obj_get written (js "_last_updated")
      = Some (VStr (js "2026-01-01T00:00:00.000Z"))
    ∧ (∀ k, k ∈ keys written → startsWith k [UNDERSCORE] = true →
            k = js "_provider" ∨ k = js "_last_updated")
    ∧ ∃ stored,
        JSON_parse (stringify_object written 2) = Some (VObj stored)
        ∧ keys stored = keys written
        ∧ obj_get stored (js "_provider") = Some (VStr (js "google"))
        ∧ obj_get stored (js "_last_updated")
          = Some (VStr (js "2026-01-01T00:00:00.000Z")).
Proof.
  assert (patch_request (js "u1")
            (stringify_object
               (snapshot (google (Some underscored_claims)) underscored_claims
                  (js "2026-01-01T00:00:00.000Z")) 2)
          ∈ requests
              (captureIdpClaimsWorkflow
                 (store [] (Resolved empty_response) None)
                 (social_login (Some underscored_claims) (Some (js "u1")))
                 (fresh ∅ ∅)).2) as Hin.
  { apply list_elem_of_In. vm_compute. right. right. left. reflexivity. }
  destruct (snapshot_reserved_names (H := integers_laws)
              (store [] (Resolved empty_response) None)
              (social_login (Some underscored_claims) (Some (js "u1")))
              (fresh ∅ ∅) (google (Some underscored_claims))
              underscored_claims _ eq_refl eq_refl Hin (not_elem_of_nil _)
              eq_refl)
    as (userId & written & Hr & Hw & Hprov & Hupd & _ & Hinv & Hparse).
  exists userId, written.
  split_and!; [exact Hr|rewrite Hw; reflexivity|exact Hprov
              |exact Hupd| |].
  - apply Hinv. intros k v Hk Hs.
    apply list_elem_of_In in Hk. simpl in Hk.
    destruct Hk as [[= <- <-]|[[= <- <-]|[[= <- <-]|[[= <- <-]|[[= <- <-]|[]]]]]];
      [discriminate Hs|left; reflexivity|right; right; left; reflexivity
      |right; right; right; reflexivity|discriminate Hs].
  - apply Hparse. apply (bool_decide_unpack _). vm_compute. reflexivity.
Defined.

(** C6 fails on the code as it is stated.  A snapshot that holds the
    number [Infinity] has only strings and numbers as values, yet its text
    reads back with [null] in the place of the number. *)
Lemma snapshot_with_infinity_reads_null :
  let o :=
    [ (js "limit", VInfinity); (js "_provider", VStr (js "google"));
      (js "_last_updated", VStr (js "2026-01-01T00:00:00.000Z")) ] in
  NoDup (keys o)
  ∧ Forall (λ e, primitive e.2 = true) o
  ∧ JSON_parse (stringify_object o 2)
    = Some (VObj
        [ (js "limit", VNull); (js "_provider", VStr (js "google"));
          (js "_last_updated", VStr (js "2026-01-01T00:00:00.000Z")) ])
  ∧ JSON_parse (stringify_object o 2) ≠ Some (VObj o).
Proof.
  split_and!.
  - apply (bool_decide_unpack _). by vm_compute.
  - by repeat constructor.
  - reflexivity.
  - intros H.
    apply (f_equal (λ x, match x with
                         | Some (VObj ((_, VNull) :: _)) => true
                         | _ => false
                         end)) in H.
    vm_compute in H. discriminate H.
Qed.

Lemma parse_stringify_snapshot_witness :
  JSON_parse
    (stringify_object
       [ (js "sub", VStr (js "u1")); (js "age", VInt 42);
         (js "email_verified", VBool true); (js "hd", VNull);
         (js "_provider", VStr (js "google"));
         (js "_last_updated", VStr (js "2026-01-01T00:00:00.000Z")) ] 2)
  = Some (VObj
       [ (js "sub", VStr (js "u1")); (js "age", VInt 42);
         (js "email_verified", VBool true); (js "hd", VNull);
         (js "_provider", VStr (js "google"));
         (js "_last_updated", VStr (js "2026-01-01T00:00:00.000Z")) ]).
Proof.
  assert (NoDup (keys
            [ (js "sub", VStr (js "u1")); (js "age", VInt 42);
              (js "email_verified", VBool true); (js "hd", VNull);
              (js "_provider", VStr (js "google"));
              (js "_last_updated", VStr (js "2026-01-01T00:00:00.000Z")) ]))
    as Hnd by (apply (bool_decide_unpack _); vm_compute; reflexivity).
  apply (proj1 (parse_stringify_snapshot (H := integers_laws) _ Hnd
                  ltac:(repeat constructor))).
  repeat constructor.
Defined.

Lemma projection_complete_witness :
  ∃ h', handleTokensGeneration
          (store [] (Resolved empty_response)
             (Some (jsq "{'a':1,'b':'x','_provider':'google','_last_updated':'T'}")))
          token_request (fresh ∅ ∅)
        = (Normal (), h')
    ∧ ∀ token token',
        (token = accessToken (fresh ∅ ∅) ∧ token' = accessToken h'
         ∨ token = idToken (fresh ∅ ∅) ∧ token' = idToken h') →
        (∀ k v,
           (k, v) ∈ [ (js "a", VInt 1); (js "b", VStr (js "x"));
                      (js "_provider", VStr (js "google"));
                      (js "_last_updated", VStr (js "T")) ] →
           startsWith k [UNDERSCORE] = false →
           token' !! (js "idp_" ++ k) = Some v)
        ∧ (∀ k, startsWith k [UNDERSCORE] = true →
                token' !! (js "idp_" ++ k) = token !! (js "idp_" ++ k))
        ∧ (∀ name,
             (∀ k v,
                (k, v) ∈ [ (js "a", VInt 1); (js "b", VStr (js "x"));
                           (js "_provider", VStr (js "google"));
                           (js "_last_updated", VStr (js "T")) ] →
                startsWith k [UNDERSCORE] = false →
                name ≠ js "idp_" ++ k) →
             token' !! name = token !! name).
Proof.
  destruct (projection_complete
              (store [] (Resolved empty_response)
                 (Some (jsq "{'a':1,'b':'x','_provider':'google','_last_updated':'T'}")))
              token_request (fresh ∅ ∅) (js "u1")
              (listing
                 [ {| prop_key := IDP_CLAIMS_PROPERTY_KEY;
                      prop_value :=
                        PropString
                          (jsq "{'a':1,'b':'x','_provider':'google','_last_updated':'T'}") |} ])
              (jsq "{'a':1,'b':'x','_provider':'google','_last_updated':'T'}")
              [ (js "a", VInt 1); (js "b", VStr (js "x"));
                (js "_provider", VStr (js "google"));
                (js "_last_updated", VStr (js "T")) ]
              eq_refl eq_refl eq_refl eq_refl eq_refl)
    as (c & h' & Hrun & _ & Hnormal & Htokens).
  exists h'. split; [|exact Htokens].
  rewrite Hrun. f_equal. apply Hnormal. reflexivity.
Defined.

Lemma projection_malformed_adds_nothing_witness :
  ∃ h', handleTokensGeneration
          (store [] (Resolved empty_response) (Some (jsq "{'sub': 'u1'")))
          token_request (fresh ∅ ∅)
        = (Return, h')
    ∧ accessToken h' = accessToken (fresh ∅ ∅)
    ∧ idToken h' = idToken (fresh ∅ ∅).
Proof.
  eapply (projection_malformed_adds_nothing _ token_request (fresh ∅ ∅)
            (js "u1")); reflexivity.
Defined.

(** The scenario of a login through Google followed by a token: the
    snapshot the capture writes, stored as it is, gives the two claims
    [idp_sub] and [idp_email] and nothing else. *)
Example capture_then_projection :
  ∃ written,
    captureIdpClaimsWorkflow (store [] (Resolved empty_response) None)
      (social_login (Some raw_claims) (Some (js "u1"))) (fresh ∅ ∅)
    = (Normal (),
       sent (fresh ∅ ∅)
         [list_properties_request; create_property_request;
          patch_request (js "u1") written])
    ∧ handleTokensGeneration
        (store [] (Resolved empty_response) (Some written))
        token_request (fresh ∅ ∅)
      = (Normal (),
         {| requests := [user_properties_request (js "u1")];
            accessToken :=
              {[ js "idp_sub" := VStr (js "u1");
                 js "idp_email" := VStr (js "a@b.com") ]};
            idToken :=
              {[ js "idp_sub" := VStr (js "u1");
                 js "idp_email" := VStr (js "a@b.com") ]} |}).
Proof.
  exists (stringify_object
            [ (js "sub", VStr (js "u1")); (js "email", VStr (js "a@b.com"));
              (js "_provider", VStr (js "google"));
              (js "_last_updated", VStr (js "2026-01-01T00:00:00.000Z")) ] 2).
  split; reflexivity.
Qed.

(** The closing log can fail.  For the stored value
    [{"a":1,"_provider":{"toString":1}}] the handler adds [idp_a] to both
    tokens and then throws a TypeError: the template literal of the log
    cannot turn the object into a string. *)
Example projection_log_throws :
  handleTokensGeneration
    (store [] (Resolved empty_response)
       (Some (jsq "{'a':1,'_provider':{'toString':1}}")))
    token_request (fresh ∅ ∅)
  = (Throw TypeError,
     {| requests := [user_properties_request (js "u1")];
        accessToken := {[ js "idp_a" := VInt 1 ]};
        idToken := {[ js "idp_a" := VInt 1 ]} |}).
Proof. reflexivity. Qed.

(** A literal that is too large is read as an infinity, which is written
    back as [null]. *)
Example parse_overflow :
  JSON_parse (js "[1e400]") = Some (VArr [VInfinity])
  ∧ JSON_stringify (VArr [VInfinity]) 0 = Some (js "[null]").
Proof. split; reflexivity. Qed.

(** ** The further properties at concrete inputs *)

Lemma capture_listed_witness :
  captureIdpClaimsWorkflow (store [idp_claims_definition] already_exists None)
    (social_login (Some raw_claims) (Some (js "u1"))) (fresh ∅ ∅)
  = (Normal (),
     sent (fresh ∅ ∅)
       [ list_properties_request;
         patch_request (js "u1")
           (stringify_object
              (snapshot (google (Some raw_claims)) raw_claims
                 (js "2026-01-01T00:00:00.000Z")) 2) ]).
Proof.
  apply (capture_listed (store [idp_claims_definition] already_exists None)
           (social_login (Some raw_claims) (Some (js "u1"))) (fresh ∅ ∅)
           (google (Some raw_claims)) raw_claims (js "u1")
           (listing [idp_claims_definition])
           {| data_properties := Some [idp_claims_definition] |});
    reflexivity.
Defined.

Lemma capture_failures_are_thrown_witness :
  captureIdpClaimsWorkflow no_client
    (social_login (Some raw_claims) (Some (js "u1"))) (fresh ∅ ∅)
  = (Throw (Error (js "M2M client is not configured")), fresh ∅ ∅)
  ∧ captureIdpClaimsWorkflow unreachable
      (social_login (Some raw_claims) (Some (js "u1"))) (fresh ∅ ∅)
    = (Throw (ApiRejection (OtherFailure (js "timeout"))),
       sent (fresh ∅ ∅) [list_properties_request])
  ∧ captureIdpClaimsWorkflow silent
      (social_login (Some raw_claims) (Some (js "u1"))) (fresh ∅ ∅)
    = (Throw TypeError, sent (fresh ∅ ∅) [list_properties_request]).
Proof.
  split_and!.
  - apply (proj1 (capture_failures_are_thrown no_client
                    (social_login (Some raw_claims) (Some (js "u1")))
                    (fresh ∅ ∅) (google (Some raw_claims)) raw_claims
                    (js "u1") eq_refl eq_refl eq_refl eq_refl)).
    reflexivity.
  - apply (proj2 (capture_failures_are_thrown unreachable
                    (social_login (Some raw_claims) (Some (js "u1")))
                    (fresh ∅ ∅) (google (Some raw_claims)) raw_claims
                    (js "u1") eq_refl eq_refl eq_refl eq_refl) eq_refl).
    reflexivity.
  - apply (proj2 (proj2 (capture_failures_are_thrown silent
                    (social_login (Some raw_claims) (Some (js "u1")))
                    (fresh ∅ ∅) (google (Some raw_claims)) raw_claims
                    (js "u1") eq_refl eq_refl eq_refl eq_refl) eq_refl)
             empty_response); reflexivity.
Defined.

Lemma filter_claims_is_filter_witness :
  NoDup (keys nested_claims)
  ∧ filter_claims nested_claims
    = List.filter (λ e, kept e.1 e.2) nested_claims.
Proof.
  assert (NoDup (keys nested_claims)) as Hnd
    by (apply (bool_decide_unpack _); vm_compute; reflexivity).
  split; [exact Hnd|]. apply (filter_claims_is_filter nested_claims Hnd).
Defined.


Lemma capture_then_projection_agree_witness :
  ∃ h',
    handleTokensGeneration
      (store [] (Resolved empty_response)
         (Some (stringify_object
                  (snapshot (google (Some nested_claims)) nested_claims
                     (js "2026-01-01T00:00:00.000Z")) 2)))
      token_request (fresh ∅ ∅)
    = (Normal (), h')
    ∧ ∀ token token',
        (token = accessToken (fresh ∅ ∅) ∧ token' = accessToken h'
         ∨ token = idToken (fresh ∅ ∅) ∧ token' = idToken h') →
        (∀ k v, obj_get nested_claims k = Some v → kept k v = true →
                startsWith k [UNDERSCORE] = false →
                token' !! (js "idp_" ++ k) = Some v)
        ∧ (∀ k,
             (∀ v, obj_get nested_claims k = Some v →
                   kept k v = false ∨ startsWith k [UNDERSCORE] = true) →
             token' !! (js "idp_" ++ k) = token !! (js "idp_" ++ k))
        ∧ (∀ name, startsWith name (js "idp_") = false →
                   token' !! name = token !! name).
Proof.
  apply (capture_then_projection_agree (H := integers_laws)
           (store [] (Resolved empty_response)
              (Some (stringify_object
                       (snapshot (google (Some nested_claims)) nested_claims
                          (js "2026-01-01T00:00:00.000Z")) 2)))
           token_request (fresh ∅ ∅) (js "u1")
           (listing
              [ {| prop_key := IDP_CLAIMS_PROPERTY_KEY;
                   prop_value :=
                     PropString (stringify_object
                             (snapshot (google (Some nested_claims))
                                nested_claims
                                (js "2026-01-01T00:00:00.000Z")) 2) |} ])
           (google (Some nested_claims)) nested_claims
           (js "2026-01-01T00:00:00.000Z")).
  - reflexivity.
  - reflexivity.
  - reflexivity.
  - vm_compute. reflexivity.
  - apply (bool_decide_unpack _). vm_compute. reflexivity.
  - apply (bool_decide_unpack _). vm_compute. reflexivity.
Defined.

Lemma projection_only_adds_witness :
  (∀ name, startsWith name (js "idp_") = false →
     accessToken
       (handleTokensGeneration
          (store [] (Resolved empty_response) (Some (jsq "{'sub':'u1'}")))
          token_request
          (fresh {[ js "role" := VStr (js "admin") ]} ∅)).2 !! name
     = accessToken (fresh {[ js "role" := VStr (js "admin") ]} ∅) !! name)
  ∧ (∀ name,
       is_Some
         (accessToken (fresh {[ js "role" := VStr (js "admin") ]} ∅) !! name) →
       is_Some
         (accessToken
            (handleTokensGeneration
               (store [] (Resolved empty_response)
                  (Some (jsq "{'sub':'u1'}")))
               token_request
               (fresh {[ js "role" := VStr (js "admin") ]} ∅)).2 !! name)).
Proof.
  apply (projection_only_adds
           (store [] (Resolved empty_response) (Some (jsq "{'sub':'u1'}")))
           token_request (fresh {[ js "role" := VStr (js "admin") ]} ∅)).
  left. split; reflexivity.
Defined.

Lemma projection_of_array_witness :
  ∃ h',
    handleTokensGeneration
      (store [] (Resolved empty_response) (Some (jsq "[1,'x']")))
      token_request (fresh ∅ ∅)
    = (Normal (), h')
    ∧ ∀ i x, [VInt 1; VStr (js "x")] !! i = Some x →
        accessToken h' !! (js "idp_" ++ index_key (N.of_nat i)) = Some x
        ∧ idToken h' !! (js "idp_" ++ index_key (N.of_nat i)) = Some x.
Proof.
  eapply (projection_of_array _ token_request (fresh ∅ ∅) (js "u1"));
    reflexivity.
Defined.

Lemma capture_write_ignores_store_witness :
  patch_request (js "u1")
    (stringify_object
       (snapshot (google (Some raw_claims)) raw_claims
          (now (store [] (Resolved empty_response) None))) 2)
  ∈ requests
      (captureIdpClaimsWorkflow (store [] (Resolved empty_response) None)
         (social_login (Some raw_claims) (Some (js "u1"))) (fresh ∅ ∅)).2
  ∧ patch_request (js "u1")
      (stringify_object
         (snapshot (google (Some raw_claims)) raw_claims
            (now (store [idp_claims_definition] already_exists
                    (Some (jsq "{'old':true}"))))) 2)
    ∈ requests
        (captureIdpClaimsWorkflow
           (store [idp_claims_definition] already_exists
              (Some (jsq "{'old':true}")))
           (social_login (Some raw_claims) (Some (js "u1"))) (fresh ∅ ∅)).2
  ∧ patch_request (js "u1")
      (stringify_object
         (snapshot (google (Some raw_claims)) raw_claims
            (now (store [] (Resolved empty_response) None))) 2)
    = patch_request (js "u1")
        (stringify_object
           (snapshot (google (Some raw_claims)) raw_claims
              (now (store [idp_claims_definition] already_exists
                      (Some (jsq "{'old':true}"))))) 2).
Proof.
  assert (patch_request (js "u1")
            (stringify_object
               (snapshot (google (Some raw_claims)) raw_claims
                  (now (store [] (Resolved empty_response) None))) 2)
          ∈ requests
              (captureIdpClaimsWorkflow
                 (store [] (Resolved empty_response) None)
                 (social_login (Some raw_claims) (Some (js "u1")))
                 (fresh ∅ ∅)).2) as H1.
  { apply list_elem_of_In. vm_compute. right. right. left. reflexivity. }
  assert (patch_request (js "u1")
            (stringify_object
               (snapshot (google (Some raw_claims)) raw_claims
                  (now (store [idp_claims_definition] already_exists
                          (Some (jsq "{'old':true}"))))) 2)
          ∈ requests
              (captureIdpClaimsWorkflow
                 (store [idp_claims_definition] already_exists
                    (Some (jsq "{'old':true}")))
                 (social_login (Some raw_claims) (Some (js "u1")))
                 (fresh ∅ ∅)).2) as H2.
  { apply list_elem_of_In. vm_compute. right. left. reflexivity. }
  split_and!; [exact H1|exact H2|].
  apply (capture_write_ignores_store
           (store [] (Resolved empty_response) None)
           (store [idp_claims_definition] already_exists
              (Some (jsq "{'old':true}")))
           (social_login (Some raw_claims) (Some (js "u1")))
           (fresh ∅ ∅) (fresh ∅ ∅) _ _ eq_refl H1 (not_elem_of_nil _) eq_refl
           H2 (not_elem_of_nil _) eq_refl).
Defined.

Lemma parse_stringify_nested_witness :
  ∃ text,
    JSON_stringify (VObj nested_claims) 2 = Some text
    ∧ JSON_parse text = Some (VObj nested_claims).
Proof.
  apply (parse_stringify_nested (H := integers_laws) nested_claims 2).
  - apply (bool_decide_unpack _). vm_compute. reflexivity.
  - apply (bool_decide_unpack _). vm_compute. reflexivity.
Defined.

Lemma parsed_value_reads_back_witness :
  is_data (VArr [VInfinity; VObj [(js "a", VInt 2)]]) = true
  ∧ ∃ text',
      JSON_stringify (VArr [VInfinity; VObj [(js "a", VInt 2)]]) 2
      = Some text'
      ∧ JSON_parse text' = Some (VArr [VNull; VObj [(js "a", VInt 2)]])
      ∧ (VArr [VNull; VObj [(js "a", VInt 2)]]
         = VArr [VInfinity; VObj [(js "a", VInt 2)]]
         ↔ is_json (VArr [VInfinity; VObj [(js "a", VInt 2)]]) = true).
Proof.
  apply (parsed_value_reads_back (H := integers_laws)
           (jsq "[1e400, {'a':1,'a':2}]")).
  reflexivity.
Defined.

Lemma projection_absent_adds_nothing_witness :
  (∃ h', handleTokensGeneration unreachable token_request
           (fresh {[ js "role" := VStr (js "admin") ]} ∅)
         = (Return, h')
     ∧ accessToken h'
       = accessToken (fresh {[ js "role" := VStr (js "admin") ]} ∅)
     ∧ idToken h' = idToken (fresh {[ js "role" := VStr (js "admin") ]} ∅))
  ∧ (∃ h', handleTokensGeneration (store [] (Resolved empty_response) None)
             token_request (fresh {[ js "role" := VStr (js "admin") ]} ∅)
           = (Return, h')
       ∧ accessToken h'
         = accessToken (fresh {[ js "role" := VStr (js "admin") ]} ∅)
       ∧ idToken h'
         = idToken (fresh {[ js "role" := VStr (js "admin") ]} ∅)).
Proof.
  split.
  - apply (projection_absent_adds_nothing unreachable token_request _
             (js "u1") eq_refl eq_refl I).
  - apply (projection_absent_adds_nothing
             (store [] (Resolved empty_response) None) token_request _
             (js "u1") eq_refl eq_refl).
    vm_compute. reflexivity.
Defined.

(** A listed [__proto__] with the value [null] replaces the prototype of
    [userProperties]; the next one is then stored as an own property. *)
Example collect_properties_null_prototype :
  own_properties
    (collect_properties
       [ {| prop_key := PROTO; prop_value := PropString (js "a") |};
         {| prop_key := PROTO; prop_value := PropNull |};
         {| prop_key := PROTO; prop_value := PropString (js "b") |} ])
    !! PROTO
  = Some (PropString (js "b"))
  ∧ own_properties
      (collect_properties
         [ {| prop_key := PROTO; prop_value := PropString (js "a") |} ])
      !! PROTO
    = None.
Proof. split; reflexivity. Qed.

